(** * cvpack: RMSD-content collective variables

    A shallow embedding of [cvpack/rmsd_content.py] (class [RMSDContent]) and
    [cvpack/sheet_rmsd_content.py] (class [SheetRMSDContent]).

    - Python integers are [Z]; Python lists are [list]; the dictionary built in
      [_getAtomList] is a [gmap string Z].
    - A raised exception is a value of [exn]; fallible code returns [result].
    - The energy expression handed to [openmm.CustomCVForce] is kept as the
      tree of string operations that builds it ([expr]); [render] gives the
      text itself.
    - [CustomCVForce] objects are mutated after they have been registered as a
      collective variable of another force, so they live in a store
      ([list CustomCVForce]) and are referred to by address. *)

From Stdlib Require Import ZArith Lia String Ascii List.
From stdpp Require Import base option list list_numbers strings gmap pretty.

Local Open Scope Z_scope.

(** ** Exceptions and results *)

Inductive exn : Type :=
  | ValueError (msg : string)
  | KeyError (key : string)
  | IndexError
  | UnboundLocalError (name : string).

Inductive result (A : Type) : Type :=
  | Ok (a : A)
  | Raise (e : exn).

Arguments Ok {A} a.
Arguments Raise {A} e.

#[global] Instance result_ret : MRet result := fun A a => Ok a.

#[global] Instance result_bind : MBind result := fun A B k r =>
  match r with
  | Ok a => k a
  | Raise e => Raise e
  end.

(** [list(map(f, l))]: the first element on which [f] raises ends the call. *)
Fixpoint map_result {A B : Type} (f : A → result B) (l : list A) : result (list B) :=
  match l with
  | [] => Ok []
  | a :: l' => b ← f a ; bs ← map_result f l' ; Ok (b :: bs)
  end.

(** A [for] loop whose body may raise, threading the loop state. *)
Fixpoint for_each {A St : Type} (body : St → A → result St) (l : list A) (s : St)
  : result St :=
  match l with
  | [] => Ok s
  | a :: l' => s' ← body s a ; for_each body l' s'
  end.

(** ** Python built-ins *)

Definition len {A : Type} (l : list A) : Z := Z.of_nat (length l).

(** [range(a, b)] and [range(n)]. *)
Definition range (a b : Z) : list Z := seqZ a (b - a).
Definition range0 (n : Z) : list Z := range 0 n.

(** [l[i]]: a negative index counts from the end; out of range raises. *)
Definition py_index {A : Type} (l : list A) (i : Z) : result A :=
  let k := if i <? 0 then i + len l else i in
  if k <? 0 then Raise IndexError
  else match l !! Z.to_nat k with
       | Some a => Ok a
       | None => Raise IndexError
       end.

(** [sum(ls, [])] on a list of lists. *)
Definition sum_lists {A : Type} (ls : list (list A)) : list A := concat ls.

(** [sum(l)] on a list of integers. *)
Definition py_sum (l : list Z) : Z := foldl Z.add 0 l.

(** [sep.join(ls)]. *)
Definition join (sep : string) (ls : list string) : string := String.concat sep ls.

(** [s.replace(old, new)] where [old] is a single character. *)
Fixpoint replace_char (old : ascii) (new : string) (s : string) : string :=
  match s with
  | EmptyString => EmptyString
  | String c s' =>
      if Ascii.eqb c old then new +:+ replace_char old new s'
      else String c (replace_char old new s')
  end.

(** [str(i)] as an f-string prints it. *)
Definition str_int (i : Z) : string := pretty i.

(** ** Topology: atoms and residues (the fields the code reads) *)

Record Atom : Type := mkAtom { atom_name : string; atom_index : Z }.

Record Residue : Type := mkResidue {
  res_name : string;
  res_id : string;
  res_atoms : list Atom
}.

(** ** [RMSDContent._getAtomList] *)

(** [{atom.name: atom.index for atom in residue.atoms()}]: a later atom with
    the same name replaces an earlier one. *)
Definition residue_atoms_dict (residue : Residue) : gmap string Z :=
  foldl (fun d a => <[atom_name a := atom_index a]> d) ∅ (res_atoms residue).

Definition atom_not_found (atom : string) (residue : Residue) : string :=
  "Atom " +:+ atom +:+ " not found in residue " +:+ res_name residue +:+ res_id residue.

Definition backbone_names : list string := ["N"; "CA"; "CB"; "C"; "O"]%string.

(** The [for atom in (...)] loop with its [try]/[except KeyError]. *)
Fixpoint collect_atoms (residue : Residue) (residue_atoms : gmap string Z)
    (names : list string) (atom_list : list Z) : result (list Z) :=
  match names with
  | [] => Ok atom_list
  | atom :: names' =>
      match residue_atoms !! atom with
      | Some i => collect_atoms residue residue_atoms names' (atom_list ++ [i])
      | None => Raise (ValueError (atom_not_found atom residue))
      end
  end.

Definition _getAtomList (residue : Residue) : result (list Z) :=
  let residue_atoms := residue_atoms_dict residue in
  residue_atoms ←
    (if bool_decide (res_name residue = "GLY"%string) then
       match residue_atoms !! "HA2"%string with
       | Some h => Ok (<["CB"%string := h]> residue_atoms)
       | None => Raise (KeyError "HA2")
       end
     else Ok residue_atoms) ;
  collect_atoms residue residue_atoms backbone_names [].

(** ** Energy expressions *)

(** One summand of a sum: the step-function template with its placeholder
    replaced, or a bare variable. *)
Inductive term : Type :=
  | Step (stepFunction : string) (x : string)
  | Var (name : string).

(** [f"x{i}=rmsd{i}/{thresholdRMSD}"]; the threshold is kept as the text the
    f-string prints for it. *)
Record definition : Type := mkDef {
  def_name : string;
  def_cv : string;
  def_threshold : string
}.

Inductive expr : Type :=
  | Sum (summands : list term)
  | WithDefs (main : expr) (definitions : list definition)
  | Normalized (summation : expr) (count : Z).

Definition render_term (t : term) : string :=
  match t with
  | Step stepFunction x => replace_char "x" x stepFunction
  | Var name => name
  end.

Definition render_def (d : definition) : string :=
  def_name d +:+ "=" +:+ def_cv d +:+ "/" +:+ def_threshold d.

Fixpoint render (e : expr) : string :=
  match e with
  | Sum summands => join "+" (render_term <$> summands)
  | WithDefs main definitions => join ";" (render main :: (render_def <$> definitions))
  | Normalized summation count => "(" +:+ render summation +:+ ")/" +:+ str_int count
  end.

Definition var_x (i : Z) : string := "x" +:+ str_int i.
Definition var_rmsd (i : Z) : string := "rmsd" +:+ str_int i.
Definition var_chunk (i : Z) : string := "chunk" +:+ str_int i.

(** The number of terms an expression adds up at its top. *)
Fixpoint summed_children (e : expr) : nat :=
  match e with
  | Sum summands => length summands
  | WithDefs main _ => summed_children main
  | Normalized summation _ => summed_children summation
  end.

(** ** Forces and the store *)

(** Reference geometries are read from a data file of the package. *)
Inductive Positions : Type :=
  | loadPositions (filename : string).

Definition _loadPositions (filename : string) : Positions := loadPositions filename.

(** A collective variable registered in a [CustomCVForce]: an [RMSD] force
    (built once, never changed afterwards), or another [CustomCVForce], held
    by its address in the store. *)
Inductive cv : Type :=
  | RMSD (referencePositions : Positions) (group : list Z) (numAtoms : Z)
  | ForceAt (address : nat).

Record CustomCVForce : Type := mkForce {
  energy : expr;
  variables : list (string * cv)
}.

Abbreviation store := (list CustomCVForce).

(** [openmm.CustomCVForce(energy)]: a new object at the next free address. *)
Definition new_force (e : expr) (h : store) : store * nat :=
  (h ++ [mkForce e []], length h).

(** [force.addCollectiveVariable(name, variable)] on the object at [address]. *)
Definition addCollectiveVariable (address : nat) (name : string) (variable : cv)
    (h : store) : store :=
  alter (fun f => mkForce (energy f) (variables f ++ [(name, variable)])) address h.

(** ** [RMSDContent.__init__] *)

Record RMSDContent : Type := mkRMSDContent {
  forces : store;              (* [self] is the force at address 0 *)
  _num_residue_blocks : Z
}.

Definition self_address : nat := 0%nat.

Definition blocks_out_of_range (num_residues num_residue_blocks : Z) : string :=
  str_int num_residues +:+ " residues yield " +:+ str_int num_residue_blocks
  +:+ " blocks, which is not between 1 and 1024".

(** The local function [expression(start)]. *)
Definition expression (num_residue_blocks : Z) (stepFunction thresholdRMSD : string)
    (start : Z) : expr :=
  let indices := range start (Z.min (start + 32) num_residue_blocks) in
  WithDefs
    (Sum ((fun i => Step stepFunction (var_x i)) <$> indices))
    ((fun i => mkDef (var_x i) (var_rmsd i) thresholdRMSD) <$> indices).

(** The state of the final loop: the store and the local variable [force]
    ([None] while it is unbound). *)
Definition loop_state : Type := store * option nat.

Definition loop_body (num_residue_blocks : Z) (stepFunction thresholdRMSD : string)
    (ideal_positions : Positions) (block_atoms : list (list Z)) (numAtoms : Z)
    (st : loop_state) (index : Z) : result loop_state :=
  let '(h, force) := st in
  let '(h, force) :=
    if bool_decide (num_residue_blocks > 32 ∧ index `mod` 32 = 0) then
      let '(h, chunk) :=
        new_force (expression num_residue_blocks stepFunction thresholdRMSD index) h in
      (addCollectiveVariable self_address (var_chunk (index `div` 32)) (ForceAt chunk) h,
       Some chunk)
    else (h, force) in
  match force with
  | Some address =>
      group ← py_index block_atoms index ;
      Ok (addCollectiveVariable address (var_rmsd index)
            (RMSD ideal_positions group numAtoms) h, force)
  | None => Raise (UnboundLocalError "force")
  end.

Definition RMSDContent_init (residue_blocks : list (list Z)) (ideal_positions : Positions)
    (residues : list Residue) (numAtoms : Z) (thresholdRMSD stepFunction : string)
    (normalize : bool) : result RMSDContent :=
  let num_residue_blocks := len residue_blocks in
  if negb ((1 <=? num_residue_blocks) && (num_residue_blocks <=? 1024)) then
    Raise (ValueError (blocks_out_of_range (len residues) num_residue_blocks))
  else
    residue_atoms ← map_result _getAtomList residues ;
    block_atoms ←
      map_result (fun block =>
                    atoms ← map_result (py_index residue_atoms) block ;
                    Ok (sum_lists atoms))
                 residue_blocks ;
    let '(summation, force) :=
      if num_residue_blocks <=? 32 then
        (expression num_residue_blocks stepFunction thresholdRMSD 0, Some self_address)
      else
        (Sum ((fun i => Var (var_chunk i)) <$> range0 ((num_residue_blocks + 31) `div` 32)),
         None) in
    let '(h, self) :=
      new_force (if normalize then Normalized summation num_residue_blocks else summation) [] in
    st ← for_each
           (loop_body num_residue_blocks stepFunction thresholdRMSD ideal_positions
                      block_atoms numAtoms)
           (range0 num_residue_blocks) (h, force) ;
    Ok (mkRMSDContent (fst st) num_residue_blocks).

Definition getNumResidueBlocks (self : RMSDContent) : Z := _num_residue_blocks self.

(** ** [SheetRMSDContent.__init__] *)

Definition PARABETA_POSITIONS : Positions := _loadPositions "ideal_parallel_beta_sheet.csv".
Definition ANTIBETA_POSITIONS : Positions := _loadPositions "ideal_antiparallel_beta_sheet.csv".

Definition min_distance (parallel : bool) : Z := if parallel then 6 else 5.

(** [[i, i + 1, i + 2, j, j + 1, j + 2]]. *)
Definition group_of (i j : Z) : list Z := [i; i + 1; i + 2; j; j + 1; j + 2].

(** [np.cumsum(blockSizes)], and [np.insert(np.cumsum(blockSizes), 0, 0)]. *)
Fixpoint cumsum_from (acc : Z) (l : list Z) : list Z :=
  match l with
  | [] => []
  | x :: l' => (acc + x) :: cumsum_from (acc + x) l'
  end.

Definition cumsum (l : list Z) : list Z := cumsum_from 0 l.

Definition block_bounds (blockSizes : list Z) : list Z := 0 :: cumsum blockSizes.

Definition block_sum_mismatch (total num_residues : Z) : string :=
  "The sum of block sizes (" +:+ str_int total +:+ ") and the number of residues ("
  +:+ str_int num_residues +:+ ") must be equal.".

(** The comprehension of the branch without [blockSizes]. *)
Definition unblocked_groups (num_residues : Z) (parallel : bool) : list (list Z) :=
  let min_distance := min_distance parallel in
  i ← range0 (num_residues - 2 - min_distance) ;
  j ← range (i + min_distance) (num_residues - 2) ;
  [group_of i j].

(** The groups that one pair of consecutive blocks contributes. *)
Definition block_pair_groups (lo mid hi : Z) : list (list Z) :=
  i ← range lo (mid - 2) ;
  j ← range mid (hi - 2) ;
  [group_of i j].

(** The comprehension of the branch with [blockSizes]. *)
Definition blocked_groups (blockSizes : list Z) : result (list (list Z)) :=
  let bounds := block_bounds blockSizes in
  per_k ← map_result
            (fun k =>
               lo ← py_index bounds k ;
               mid ← py_index bounds (k + 1) ;
               hi ← py_index bounds (k + 2) ;
               Ok (block_pair_groups lo mid hi))
            (range0 (len blockSizes - 1)) ;
  Ok (concat per_k).

(** The [if]/[elif]/[else] that computes [residue_groups]. *)
Definition residue_groups (num_residues : Z) (parallel : bool)
    (blockSizes : option (list Z)) : result (list (list Z)) :=
  match blockSizes with
  | None => Ok (unblocked_groups num_residues parallel)
  | Some sizes =>
      if bool_decide (py_sum sizes = num_residues) then blocked_groups sizes
      else Raise (ValueError (block_sum_mismatch (py_sum sizes) num_residues))
  end.

(** The constructor; its last statement, [self._registerCV(...)], only records
    the arguments for serialization and is left out. *)
Definition SheetRMSDContent_init (residues : list Residue) (numAtoms : Z)
    (parallel : bool) (blockSizes : option (list Z)) (thresholdRMSD stepFunction : string)
    (normalize : bool) : result RMSDContent :=
  groups ← residue_groups (len residues) parallel blockSizes ;
  RMSDContent_init groups (if parallel then PARABETA_POSITIONS else ANTIBETA_POSITIONS)
    residues numAtoms thresholdRMSD stepFunction normalize.

Definition default_stepFunction : string := "(1+x^4)/(1+x^4+x^8)".
Definition default_thresholdRMSD : string := "0.08".

(** ** The store a construction leaves

    Closed forms for the energy of [self] and for the store after the first
    [k] rounds of the final loop; the properties below show that the loop
    produces them. *)

Section Layout.
Variables (num_residue_blocks : Z) (stepFunction thresholdRMSD : string).
Variables (ideal_positions : Positions) (block_atoms : list (list Z)) (numAtoms : Z).
Variable normalize : bool.

(** [ceil(k / 32)]. *)
Definition num_chunks (k : Z) : Z := (k + 31) `div` 32.

Definition self_energy : expr :=
  let summation :=
    if num_residue_blocks <=? 32 then
      expression num_residue_blocks stepFunction thresholdRMSD 0
    else Sum ((fun i => Var (var_chunk i)) <$> range0 (num_chunks num_residue_blocks)) in
  if normalize then Normalized summation num_residue_blocks else summation.

(** What round [i] registers: [rmsd{i}], bound to the [RMSD] of group [i]. *)
Definition rmsd_entry (i : Z) : string * cv :=
  (var_rmsd i, RMSD ideal_positions (default [] (block_atoms !! Z.to_nat i)) numAtoms).

(** What [self] registers for chunk [c]; chunk [c] lives at address [c + 1]. *)
Definition chunk_entry (c : Z) : string * cv := (var_chunk c, ForceAt (S (Z.to_nat c))).

(** Chunk [c] after [k] rounds: it holds the groups from [32 * c] on. *)
Definition chunk_after (k c : Z) : CustomCVForce :=
  mkForce (expression num_residue_blocks stepFunction thresholdRMSD (32 * c))
          (rmsd_entry <$> range (32 * c) (Z.min (32 * c + 32) k)).

(** The store after [k] rounds, for more than 32 groups... *)
Definition chunked_after (k : Z) : store :=
  mkForce self_energy (chunk_entry <$> range0 (num_chunks k))
  :: (chunk_after k <$> range0 (num_chunks k)).

(** ... and for at most 32. *)
Definition single_after (k : Z) : store :=
  [mkForce self_energy (rmsd_entry <$> range0 k)].

Definition final_store : store :=
  if num_residue_blocks <=? 32 then single_after num_residue_blocks
  else chunked_after num_residue_blocks.

(** The local variable [force] after [k] rounds. *)
Definition force_after (k : Z) : option nat :=
  if num_residue_blocks <=? 32 then Some self_address
  else if k <=? 0 then None
  else Some (Z.to_nat (num_chunks k)).
End Layout.

(** ** Texts *)

(** The part of an energy text before its first [;]. *)
Fixpoint primary_text (s : string) : string :=
  match s with
  | EmptyString => EmptyString
  | String c s' => if Ascii.eqb c ";" then EmptyString else String c (primary_text s')
  end.

(** Opening minus closing parentheses. *)
Fixpoint paren_depth (s : string) : Z :=
  match s with
  | EmptyString => 0
  | String c s' =>
      (if Ascii.eqb c "(" then 1 else if Ascii.eqb c ")" then -1 else 0) + paren_depth s'
  end.

(** The first character of a text, if any. *)
Definition first_char (s : string) : option ascii :=
  match s with
  | EmptyString => None
  | String c _ => Some c
  end.

(** ** The hosting engine's reading of a force

    The engine is not part of the package; this is the reading of an energy
    text the package relies on.  A text is [main; name=definition; ...]: only
    the whole text may carry definitions, so [WithDefs] anywhere below the top
    is a syntax error and has no value.  A name is looked up among the
    definitions of the text, then among the collective variables registered in
    the force; a registered [CustomCVForce] is evaluated in turn.  The text of
    a summand made from the step function, as [replace] has left it, is handed
    to the engine's own reading of an arithmetic text, [text_value], with the
    names resolved in that force: which texts can be read, and what becomes of
    a name the force does not bind, is for [text_value] to say.  Values are
    taken in any type [V] with an addition; each summand is read on its own
    and [a+b+c] is summed from the left. *)

Section Engine.
Context {V : Type}.
Variable add : V → V → V.
(** the value of the text of one term, the names in it taking the values
    that the second argument gives *)
Variable text_value : string → (string → option V) → option V.
(** division by a threshold given by its text, and by a group count *)
Variable over_threshold : V → string → V.
Variable over_count : V → Z → V.
(** the value of an [RMSD] force *)
Variable rmsd_value : Positions → list Z → Z → V.

Fixpoint assoc {A : Type} (name : string) (l : list (string * A)) : option A :=
  match l with
  | [] => None
  | (k, a) :: l' => if bool_decide (k = name) then Some a else assoc name l'
  end.

Fixpoint find_def (name : string) (defs : list definition) : option definition :=
  match defs with
  | [] => None
  | d :: defs' => if bool_decide (def_name d = name) then Some d else find_def name defs'
  end.

Definition sum_values (vs : list V) : option V :=
  match vs with
  | [] => None
  | v :: vs' => Some (foldl add v vs')
  end.

Section Energy.
(** the value of a registered collective variable, by name *)
Variable cv_value : string → option V.

Definition var_value (defs : list definition) (name : string) : option V :=
  match find_def name defs with
  | Some d => (fun v => over_threshold v (def_threshold d)) <$> cv_value (def_cv d)
  | None => cv_value name
  end.

Definition term_value (defs : list definition) (t : term) : option V :=
  match t with
  | Step _ _ => text_value (render_term t) (var_value defs)
  | Var name => var_value defs name
  end.

Fixpoint arith_value (defs : list definition) (e : expr) : option V :=
  match e with
  | Sum summands => mapM (term_value defs) summands ≫= sum_values
  | WithDefs _ _ => None
  | Normalized summation count =>
      (fun v => over_count v count) <$> arith_value defs summation
  end.

Definition energy_value (e : expr) : option V :=
  match e with
  | WithDefs main defs => arith_value defs main
  | _ => arith_value [] e
  end.
End Energy.

(** The value of the force at [address]; [fuel] bounds the nesting depth. *)
Fixpoint force_value (fuel : nat) (h : store) (address : nat) : option V :=
  match fuel with
  | O => None
  | S fuel' =>
      f ← h !! address ;
      energy_value
        (fun name =>
           c ← assoc name (variables f) ;
           match c with
           | RMSD referencePositions group numAtoms =>
               Some (rmsd_value referencePositions group numAtoms)
           | ForceAt a => force_value fuel' h a
           end)
        (energy f)
  end.

(** The value of a constructed [RMSDContent]: that of [self]. *)
Definition content_value (fuel : nat) (self : RMSDContent) : option V :=
  force_value fuel (forces self) self_address.

(** *** The unchunked assembly

    What the specification compares with: all the terms [S(rmsd_i/threshold)]
    in one sum owned by a single force, whatever their number. *)

Definition unchunked_force (block_atoms : list (list Z)) (ideal_positions : Positions)
    (numAtoms : Z) (thresholdRMSD stepFunction : string) : CustomCVForce :=
  let indices := range0 (len block_atoms) in
  mkForce
    (WithDefs
       (Sum ((fun i => Step stepFunction (var_x i)) <$> indices))
       ((fun i => mkDef (var_x i) (var_rmsd i) thresholdRMSD) <$> indices))
    (rmsd_entry ideal_positions block_atoms numAtoms <$> indices).

(** The step function [S] as a function of its placeholder. *)
Variable step : V → V.

(** [S(rmsd / threshold)] for the group made of [atoms]. *)
Definition group_term (ideal_positions : Positions) (numAtoms : Z)
    (thresholdRMSD : string) (atoms : list Z) : V :=
  step (over_threshold (rmsd_value ideal_positions atoms numAtoms) thresholdRMSD).

(** The sum over all groups of [S(rmsd_i / threshold)], from the left. *)
Definition aggregate (block_atoms : list (list Z)) (ideal_positions : Positions)
    (numAtoms : Z) (thresholdRMSD : string) : option V :=
  sum_values (group_term ideal_positions numAtoms thresholdRMSD <$> block_atoms).

(** The text [stepFunction] is a step function of its placeholder, [S]: once
    [x] is replaced by a variable [x{i}], the engine gives the text the value
    [S] of that variable, whatever else is bound, and none when the variable
    is not bound. *)
Definition reads_as (stepFunction : string) : Prop :=
  ∀ (i : Z) (env : string → option V),
    text_value (replace_char "x" (var_x i) stepFunction) env = step <$> env (var_x i).
End Engine.

(** The atoms of the groups, as [__init__] computes [block_atoms]. *)
Definition block_atoms_of (residues : list Residue) (residue_blocks : list (list Z))
  : result (list (list Z)) :=
  residue_atoms ← map_result _getAtomList residues ;
  map_result (fun block =>
                atoms ← map_result (py_index residue_atoms) block ;
                Ok (sum_lists atoms))
             residue_blocks.

(** ** Closed forms for the number of groups *)

(** The index of the first residue of block [k]: the sizes before it, added up. *)
Definition block_start (blockSizes : list Z) (k : nat) : Z := py_sum (take k blockSizes).

(** The sum, over consecutive blocks, of [(n_k - 2) * (n_(k+1) - 2)]. *)
Fixpoint block_pairs_formula (blockSizes : list Z) : Z :=
  match blockSizes with
  | [] => 0
  | a :: rest =>
      match rest with
      | [] => 0
      | b :: _ => (a - 2) * (b - 2) + block_pairs_formula rest
      end
  end.

(** The same sum, a block of fewer than two residues counting for none. *)
Fixpoint block_pairs_count (blockSizes : list Z) : Z :=
  match blockSizes with
  | [] => 0
  | a :: rest =>
      match rest with
      | [] => 0
      | b :: _ => Z.max 0 (a - 2) * Z.max 0 (b - 2) + block_pairs_count rest
      end
  end.

(** [sum(f(k) for k in l)]. *)
Definition sumZ (f : Z → Z) (l : list Z) : Z := foldr (fun k acc => f k + acc) 0 l.

(** ** Sample inputs *)

(** An alanine whose atoms are numbered from [10 * k]. *)
Definition ala (k : Z) : Residue :=
  mkResidue "ALA" (str_int (k + 1))
    [mkAtom "N" (10 * k); mkAtom "H" (10 * k + 1); mkAtom "CA" (10 * k + 2);
     mkAtom "HA" (10 * k + 3); mkAtom "CB" (10 * k + 4); mkAtom "C" (10 * k + 8);
     mkAtom "O" (10 * k + 9)].

(** A glycine: no CB, two alpha hydrogens. *)
Definition gly : Residue :=
  mkResidue "GLY" "7"
    [mkAtom "N" 60; mkAtom "H" 61; mkAtom "CA" 62; mkAtom "HA2" 63; mkAtom "HA3" 64;
     mkAtom "C" 65; mkAtom "O" 66].

(** A glycine with neither HA2 nor N. *)
Definition gly_no_HA2_no_N : Residue :=
  mkResidue "GLY" "7" [mkAtom "CA" 62; mkAtom "C" 65; mkAtom "O" 66].

(** A glycine whose alpha hydrogens go by other names. *)
Definition gly_no_HA2 : Residue :=
  mkResidue "GLY" "7"
    [mkAtom "N" 60; mkAtom "H" 61; mkAtom "CA" 62; mkAtom "HA1" 63; mkAtom "HA" 64;
     mkAtom "C" 65; mkAtom "O" 66].

(** [s.split(c, 1)], when [c] occurs in [s]. *)
Fixpoint split_at (c : ascii) (s : string) : option (string * string) :=
  match s with
  | EmptyString => None
  | String c' s' =>
      if Ascii.eqb c' c then Some (EmptyString, s')
      else '(before, after) ← split_at c s' ; Some (String c' before, after)
  end.

(** An engine over the integers, to run the model on: it reads a text that is
    a name, or the product [a*b] of two names; a threshold triples, the RMSD
    of a group is the sum of its atom indices.  For it the text [x*x] is the
    step function that squares. *)
Definition sample_text_value (text : string) (env : string → option Z) : option Z :=
  match split_at "*" text with
  | Some (a, b) => va ← env a ; vb ← env b ; Some (va * vb)
  | None => env text
  end.
Definition sample_stepFunction : string := "x*x".
Definition sample_step (v : Z) : Z := v * v.
Definition sample_over_threshold (v : Z) (thresholdRMSD : string) : Z := 3 * v.
Definition sample_over_count (v : Z) (count : Z) : Z := v `div` count.
Definition sample_rmsd (referencePositions : Positions) (group : list Z) (numAtoms : Z) : Z :=
  py_sum group.

(** A serine without its alpha carbon, and one whose N is listed twice. *)
Definition ser_no_CA : Residue :=
  mkResidue "SER" "12"
    [mkAtom "N" 110; mkAtom "CB" 114; mkAtom "OG" 115; mkAtom "C" 118; mkAtom "O" 119].

Definition ser_two_N : Residue :=
  mkResidue "SER" "12"
    [mkAtom "N" 110; mkAtom "CA" 112; mkAtom "CB" 114; mkAtom "N" 116; mkAtom "C" 118;
     mkAtom "O" 119].

(** ** Reading a store *)

(** The atom groups of the [RMSD] forces registered in a store, by address and
    order of registration. *)
Definition rmsd_groups (h : store) : list (list Z) :=
  f ← h ;
  entry ← variables f ;
  match entry.2 with
  | RMSD _ group _ => [group]
  | ForceAt _ => []
  end.

(** The names of the definitions an energy text carries. *)
Definition defined_names (e : expr) : list string :=
  match e with
  | WithDefs _ definitions => def_name <$> definitions
  | _ => []
  end.

(** The names a force binds: those its text defines, and those of the
    collective variables registered in it. *)
Definition bound_names (f : CustomCVForce) : list string :=
  defined_names (energy f) ++ (fst <$> variables f).

(** * Properties *)

(** ** Results *)

Lemma bind_Ok {A B : Type} (r : result A) (k : A → result B) (b : B) :
  r ≫= k = Ok b ↔ ∃ a, r = Ok a ∧ k a = Ok b.
Proof.
  destruct r as [a|e]; simpl; split.
  - intros H. by exists a.
  - by intros (a' & [= <-] & H).
  - discriminate.
  - by intros (a' & [=] & _).
Qed.

Lemma map_result_Ok {A B : Type} (f : A → result B) (g : A → B) (l : list A) :
  (∀ a, a ∈ l → f a = Ok (g a)) → map_result f l = Ok (g <$> l).
Proof.
  induction l as [|a l IH]; intros Hf; simpl; [done|].
  rewrite (Hf a) by left. simpl.
  rewrite IH; [done|]. intros a' Ha'. apply Hf. by right.
Qed.

Lemma map_result_length {A B : Type} (f : A → result B) (l : list A) (bs : list B) :
  map_result f l = Ok bs → length bs = length l.
Proof.
  revert bs. induction l as [|a l IH]; intros bs; simpl.
  - by intros [= <-].
  - destruct (f a) as [b|e]; simpl; [|discriminate].
    destruct (map_result f l) as [bs'|e]; simpl; [|discriminate].
    intros [= <-]. simpl. f_equal. by apply IH.
Qed.

Lemma map_result_lookup {A B : Type} (f : A → result B) (l : list A) (bs : list B)
    (i : nat) (a : A) :
  map_result f l = Ok bs → l !! i = Some a → ∃ b, bs !! i = Some b ∧ f a = Ok b.
Proof.
  revert bs i. induction l as [|a' l IH]; intros bs i; simpl; [done|].
  destruct (f a') as [b|e] eqn:Hfa; simpl; [|discriminate].
  destruct (map_result f l) as [bs'|e]; simpl; [|discriminate].
  intros [= <-]. destruct i as [|i]; simpl.
  - intros [= <-]. by exists b.
  - intros Hi. by apply IH.
Qed.

Lemma for_each_app {A St : Type} (body : St → A → result St) (l1 l2 : list A) (s : St) :
  for_each body (l1 ++ l2) s = for_each body l1 s ≫= for_each body l2.
Proof.
  revert s. induction l1 as [|a l1 IH]; intros s; simpl; [done|].
  destruct (body s a) as [s'|e]; simpl; [apply IH|done].
Qed.

(** ** Python built-ins *)

Lemma range_elem (a b k : Z) : k ∈ range a b ↔ a ≤ k < b.
Proof. unfold range. rewrite elem_of_seqZ. lia. Qed.

Lemma range_length (a b : Z) : length (range a b) = Z.to_nat (b - a).
Proof. unfold range. apply length_seqZ. Qed.

Lemma range_NoDup (a b : Z) : NoDup (range a b).
Proof. apply NoDup_seqZ. Qed.

Lemma range_snoc (a b : Z) : a ≤ b → range a (b + 1) = range a b ++ [b].
Proof.
  intros Hab. unfold range.
  replace (b + 1 - a) with (Z.of_nat (S (Z.to_nat (b - a)))) by lia.
  rewrite seqZ_S. rewrite Z2Nat.id by lia. do 2 f_equal. lia.
Qed.

Lemma range_empty (a b : Z) : b ≤ a → range a b = [].
Proof. intros. unfold range. apply seqZ_nil. lia. Qed.

Lemma range_split (a b c : Z) : a ≤ b → b ≤ c → range a c = range a b ++ range b c.
Proof.
  intros Hab Hbc. unfold range.
  replace (c - a) with ((b - a) + (c - b)) by lia.
  rewrite seqZ_app by lia. do 2 f_equal. lia.
Qed.

Lemma range_lookup (a b : Z) (i : nat) :
  a + Z.of_nat i < b → range a b !! i = Some (a + Z.of_nat i).
Proof. intros. unfold range. apply lookup_seqZ_lt. lia. Qed.

Lemma py_index_Ok {A : Type} (l : list A) (i : Z) (a : A) :
  0 ≤ i → l !! Z.to_nat i = Some a → py_index l i = Ok a.
Proof.
  intros Hi Hl. unfold py_index.
  destruct (i <? 0) eqn:E; [lia|]. rewrite E. by rewrite Hl.
Qed.

(** ** [_getAtomList] *)

Lemma residue_atoms_fold_absent (atoms : list Atom) (d : gmap string Z) (name : string) :
  (∀ a, a ∈ atoms → atom_name a ≠ name) →
  foldl (fun d a => <[atom_name a := atom_index a]> d) d atoms !! name = d !! name.
Proof.
  revert d. induction atoms as [|a atoms IH]; intros d Hall; simpl; [done|].
  rewrite IH.
  - apply lookup_insert_ne. apply Hall. left.
  - intros a' Ha'. apply Hall. by right.
Qed.

Lemma residue_atoms_fold_present (atoms : list Atom) (d : gmap string Z) (name : string)
    (i : Z) :
  foldl (fun d a => <[atom_name a := atom_index a]> d) d atoms !! name = Some i →
  d !! name = Some i ∨ ∃ a, a ∈ atoms ∧ atom_name a = name ∧ atom_index a = i.
Proof.
  revert d. induction atoms as [|a atoms IH]; intros d; simpl; [by left|].
  intros H. apply IH in H as [H|(a' & Ha' & Hn & Hi)].
  - destruct (decide (atom_name a = name)) as [<-|Hne].
    + rewrite lookup_insert_eq in H. injection H as <-.
      right. exists a. split; [left|done].
    + rewrite lookup_insert_ne in H by done. by left.
  - right. exists a'. split; [by right|done].
Qed.

(** A name that no atom of the residue bears is not a key of the dictionary. *)
Lemma residue_atoms_dict_absent (residue : Residue) (name : string) :
  (∀ a, a ∈ res_atoms residue → atom_name a ≠ name) →
  residue_atoms_dict residue !! name = None.
Proof.
  intros H. unfold residue_atoms_dict. rewrite residue_atoms_fold_absent by done.
  apply lookup_empty.
Qed.

(** Every entry of the dictionary is the index of an atom of that name. *)
Lemma residue_atoms_dict_present (residue : Residue) (name : string) (i : Z) :
  residue_atoms_dict residue !! name = Some i →
  ∃ a, a ∈ res_atoms residue ∧ atom_name a = name ∧ atom_index a = i.
Proof.
  intros H. apply residue_atoms_fold_present in H as [H|H]; [|done].
  by rewrite lookup_empty in H.
Qed.

Lemma collect_atoms_backbone (residue : Residue) (d : gmap string Z) (n ca cb c o : Z) :
  d !! "N"%string = Some n → d !! "CA"%string = Some ca → d !! "CB"%string = Some cb →
  d !! "C"%string = Some c → d !! "O"%string = Some o →
  collect_atoms residue d backbone_names [] = Ok [n; ca; cb; c; o].
Proof. intros Hn Hca Hcb Hc Ho. simpl. by rewrite Hn, Hca, Hcb, Hc, Ho. Qed.

(** Outside the glycine branch, or within it once HA2 has been found, the first
    backbone name that is not a key is reported with the residue's name and id. *)
Lemma collect_atoms_missing (residue : Residue) (d : gmap string Z) (names : list string)
    (acc : list Z) (before after : list string) (atom : string) :
  names = before ++ atom :: after →
  (∀ b, b ∈ before → is_Some (d !! b)) →
  d !! atom = None →
  collect_atoms residue d names acc = Raise (ValueError (atom_not_found atom residue)).
Proof.
  intros -> Hbefore Hatom. revert acc.
  induction before as [|b before IH]; intros acc; simpl.
  - by rewrite Hatom.
  - destruct (Hbefore b) as [i Hi]; [left|]. rewrite Hi.
    apply IH. intros b' Hb'. apply Hbefore. by right.
Qed.

Lemma getAtomList_not_glycine (residue : Residue) :
  res_name residue ≠ "GLY"%string →
  _getAtomList residue =
  collect_atoms residue (residue_atoms_dict residue) backbone_names [].
Proof. intros H. unfold _getAtomList. by rewrite bool_decide_eq_false_2. Qed.

Lemma getAtomList_missing_atom (residue : Residue) (before after : list string)
    (atom : string) :
  res_name residue ≠ "GLY"%string →
  backbone_names = before ++ atom :: after →
  (∀ b, b ∈ before → is_Some (residue_atoms_dict residue !! b)) →
  residue_atoms_dict residue !! atom = None →
  _getAtomList residue = Raise (ValueError (atom_not_found atom residue)).
Proof.
  intros Hname Hsplit Hbefore Hatom. rewrite getAtomList_not_glycine by done.
  by eapply collect_atoms_missing.
Qed.

(** C8: a glycine without an atom named CB, but with atoms named HA2, N, CA, C
    and O, gets its 5-atom list, and the index of HA2 stands where that of CB
    would. *)
Theorem getAtomList_glycine_HA2 (residue : Residue) (n ca ha2 c o : Z) :
  res_name residue = "GLY"%string →
  (∀ a, a ∈ res_atoms residue → atom_name a ≠ "CB"%string) →
  residue_atoms_dict residue !! "HA2"%string = Some ha2 →
  residue_atoms_dict residue !! "N"%string = Some n →
  residue_atoms_dict residue !! "CA"%string = Some ca →
  residue_atoms_dict residue !! "C"%string = Some c →
  residue_atoms_dict residue !! "O"%string = Some o →
  _getAtomList residue = Ok [n; ca; ha2; c; o].
Proof.
  intros Hname _ Hha2 Hn Hca Hc Ho. unfold _getAtomList.
  rewrite bool_decide_eq_true_2 by done. rewrite Hha2.
  change (collect_atoms residue (<["CB"%string := ha2]> (residue_atoms_dict residue))
            backbone_names [] = Ok [n; ca; ha2; c; o]).
  apply collect_atoms_backbone;
    first [ apply lookup_insert_eq | by rewrite lookup_insert_ne ].
Qed.

Lemma getAtomList_glycine_HA2_witness : _getAtomList gly = Ok [60; 62; 63; 65; 66].
Proof.
  apply (getAtomList_glycine_HA2 gly 60 62 63 65 66); try reflexivity.
  intros a Ha. unfold gly in Ha. simpl in Ha.
  repeat (apply elem_of_cons in Ha as [->|Ha]; [simpl; discriminate|]).
  by apply elem_of_nil in Ha.
Defined.

(** C10: a glycine without an atom named HA2 makes [_getAtomList] raise the bare
    [KeyError] of the dictionary lookup, whatever its other atoms are; it is no
    [ValueError], and carries neither the residue's name nor its id. *)
Theorem getAtomList_glycine_without_HA2 (residue : Residue) :
  res_name residue = "GLY"%string →
  (∀ a, a ∈ res_atoms residue → atom_name a ≠ "HA2"%string) →
  _getAtomList residue = Raise (KeyError "HA2")
  ∧ ∀ msg, _getAtomList residue ≠ Raise (ValueError msg).
Proof.
  intros Hname Habsent.
  assert (_getAtomList residue = Raise (KeyError "HA2")) as E.
  { unfold _getAtomList. rewrite bool_decide_eq_true_2 by done.
    by rewrite residue_atoms_dict_absent. }
  split; [done|]. intros msg. by rewrite E.
Qed.

Lemma getAtomList_glycine_without_HA2_witness :
  _getAtomList gly_no_HA2 = Raise (KeyError "HA2")
  ∧ ∀ msg, _getAtomList gly_no_HA2 ≠ Raise (ValueError msg).
Proof.
  apply (getAtomList_glycine_without_HA2 gly_no_HA2); [reflexivity|].
  intros a Ha. unfold gly_no_HA2 in Ha. simpl in Ha.
  repeat (apply elem_of_cons in Ha as [->|Ha]; [simpl; discriminate|]).
  by apply elem_of_nil in Ha.
Defined.

(** C7, at a residue that breaks it: a glycine that lacks both N and HA2.  The
    required atom N cannot be located, yet what is raised is [KeyError("HA2")],
    not the [ValueError] that names N and the residue [GLY7]. *)
Theorem getAtomList_glycine_missing_N_and_HA2 :
  residue_atoms_dict gly_no_HA2_no_N !! "N"%string = None
  ∧ _getAtomList gly_no_HA2_no_N = Raise (KeyError "HA2")
  ∧ _getAtomList gly_no_HA2_no_N
    ≠ Raise (ValueError (atom_not_found "N" gly_no_HA2_no_N))
  ∧ atom_not_found "N" gly_no_HA2_no_N = "Atom N not found in residue GLY7"%string.
Proof. repeat split; try reflexivity. discriminate. Qed.

(** ** The residue groups of [SheetRMSDContent] *)

Lemma singleton_bind_length {A B : Type} (f : A → B) (l : list A) :
  length (l ≫= fun a => [f a]) = length l.
Proof. induction l as [|a l IH]; [done|]. rewrite bind_cons. simpl. by rewrite IH. Qed.

Lemma group_of_inj (i j i' j' : Z) : group_of i j = group_of i' j' → i = i' ∧ j = j'.
Proof. unfold group_of. by intros [= -> _ _ ->]. Qed.

Lemma group_row_elem (a b i : Z) (g : list Z) :
  g ∈ (range a b ≫= fun j => [group_of i j]) ↔ ∃ j, a ≤ j < b ∧ g = group_of i j.
Proof.
  rewrite list_elem_of_bind. split.
  - intros (j & Hg & Hj). apply list_elem_of_singleton in Hg. apply range_elem in Hj.
    by exists j.
  - intros (j & Hj & ->). exists j. split; [apply list_elem_of_singleton; done|].
    by apply range_elem.
Qed.

Lemma group_row_NoDup (a b i : Z) : NoDup (range a b ≫= fun j => [group_of i j]).
Proof.
  apply NoDup_bind; [| intros; apply NoDup_singleton | apply range_NoDup].
  intros j1 j2 g _ _ H1 H2.
  apply list_elem_of_singleton in H1. apply list_elem_of_singleton in H2. subst g.
  by apply group_of_inj in H2 as [_ ->].
Qed.

Lemma unblocked_groups_elem (n : Z) (parallel : bool) (g : list Z) :
  g ∈ unblocked_groups n parallel ↔
  ∃ i j, 0 ≤ i < n - 2 - min_distance parallel
         ∧ i + min_distance parallel ≤ j < n - 2
         ∧ g = group_of i j.
Proof.
  unfold unblocked_groups. rewrite list_elem_of_bind. split.
  - intros (i & Hg & Hi). apply group_row_elem in Hg as (j & Hj & ->).
    apply range_elem in Hi. exists i, j. split; [lia|done].
  - intros (i & j & Hi & Hj & ->). exists i. split.
    + apply group_row_elem. by exists j.
    + apply range_elem. lia.
Qed.

Lemma unblocked_groups_NoDup (n : Z) (parallel : bool) :
  NoDup (unblocked_groups n parallel).
Proof.
  unfold unblocked_groups. apply NoDup_bind; [| intros; apply group_row_NoDup | apply range_NoDup].
  intros i1 i2 g _ _ H1 H2.
  apply group_row_elem in H1 as (j1 & _ & ->). apply group_row_elem in H2 as (j2 & _ & H).
  by apply group_of_inj in H as [-> _].
Qed.

(** The rows get shorter by one group at a time: twice the number of groups in
    the first [t] rows is [t * (2 * m - t + 1)], with [m] the number of rows. *)
Lemma unblocked_rows_length (n d : Z) (t : nat) :
  Z.of_nat t ≤ n - 2 - d →
  2 * Z.of_nat (length (seqZ 0 (Z.of_nat t) ≫= fun i =>
                          range (i + d) (n - 2) ≫= fun j => [group_of i j]))
  = Z.of_nat t * (2 * (n - 2 - d) - Z.of_nat t + 1).
Proof.
  induction t as [|t IH]; intros Ht; [done|].
  rewrite seqZ_S, bind_app, length_app, bind_singleton, singleton_bind_length.
  rewrite range_length. nia.
Qed.

Lemma unblocked_groups_length (n : Z) (parallel : bool) :
  min_distance parallel < n →
  len (unblocked_groups n parallel)
  = ((n - 2 - min_distance parallel) * (n - 1 - min_distance parallel)) `div` 2.
Proof.
  intros Hn. unfold len, unblocked_groups, range0, range.
  set (d := min_distance parallel) in *.
  destruct (decide (n - 2 - d < 0)) as [Hneg|Hpos].
  - rewrite seqZ_nil by lia. replace (n - 2 - d) with (-1) by lia.
    by replace (n - 1 - d) with 0 by lia.
  - pose proof (unblocked_rows_length n d (Z.to_nat (n - 2 - d))) as H.
    rewrite Z2Nat.id in H by lia. specialize (H ltac:(lia)).
    replace (n - 2 - d - 0) with (n - 2 - d) by lia.
    unfold range in H. apply Z.div_unique_exact; [lia|].
    rewrite H. lia.
Qed.

(** Below [d_min + 1] residues nothing is enumerated. *)
Lemma unblocked_groups_short (n : Z) (parallel : bool) :
  n ≤ min_distance parallel + 2 → unblocked_groups n parallel = [].
Proof. intros Hn. unfold unblocked_groups, range0. by rewrite range_empty by lia. Qed.

(** ** What a successful [RMSDContent.__init__] has checked *)

Lemma RMSDContent_init_Ok_inv (residue_blocks : list (list Z)) (ideal_positions : Positions)
    (residues : list Residue) (numAtoms : Z) (thresholdRMSD stepFunction : string)
    (normalize : bool) (self : RMSDContent) :
  RMSDContent_init residue_blocks ideal_positions residues numAtoms thresholdRMSD
    stepFunction normalize = Ok self →
  1 ≤ len residue_blocks ≤ 1024
  ∧ getNumResidueBlocks self = len residue_blocks
  ∧ ∃ block_atoms, block_atoms_of residues residue_blocks = Ok block_atoms.
Proof.
  unfold RMSDContent_init, block_atoms_of.
  destruct (negb _) eqn:Hrange; [discriminate|].
  apply negb_false_iff, andb_true_iff in Hrange as [H1 H2].
  apply Z.leb_le in H1, H2.
  destruct (map_result _getAtomList residues) as [residue_atoms|e]; [|discriminate].
  simpl. destruct (map_result _ residue_blocks) as [block_atoms|e]; [|discriminate].
  simpl. destruct (len residue_blocks <=? 32); simpl;
    (destruct (for_each _ _ _) as [st|e]; [|discriminate]); simpl;
    intros [= <-]; (split; [lia|]); (split; [done|]); by exists block_atoms.
Qed.

(** C1: every construction of [SheetRMSDContent] without [blockSizes] over [n]
    residues enumerates exactly the groups [i, i+1, i+2, j, j+1, j+2] with
    [0 <= i < n-2-d_min] and [i+d_min <= j < n-2], each once, with [d_min] 6
    for parallel and 5 for antiparallel sheets; their number, which is what
    [getNumResidueBlocks] returns, is [(n-2-d_min)(n-1-d_min)/2]. *)
Theorem unblocked_construction_groups (residues : list Residue) (numAtoms : Z)
    (parallel : bool) (thresholdRMSD stepFunction : string) (normalize : bool)
    (self : RMSDContent) :
  SheetRMSDContent_init residues numAtoms parallel None thresholdRMSD stepFunction
    normalize = Ok self →
  let n := len residues in
  let d_min := if parallel then 6 else 5 in
  ∃ groups,
    residue_groups n parallel None = Ok groups
    ∧ (∀ g, g ∈ groups ↔
            ∃ i j, 0 ≤ i < n - 2 - d_min ∧ i + d_min ≤ j < n - 2
                   ∧ g = [i; i + 1; i + 2; j; j + 1; j + 2])
    ∧ NoDup groups
    ∧ len groups = ((n - 2 - d_min) * (n - 1 - d_min)) `div` 2
    ∧ getNumResidueBlocks self = ((n - 2 - d_min) * (n - 1 - d_min)) `div` 2.
Proof.
  intros Hinit n d_min. unfold SheetRMSDContent_init in Hinit. simpl in Hinit.
  apply RMSDContent_init_Ok_inv in Hinit as (Hcount & Hnum & _).
  fold n in Hcount, Hnum.
  exists (unblocked_groups n parallel).
  assert (d_min = min_distance parallel) as -> by done.
  assert (min_distance parallel < n) as Hn.
  { destruct (decide (min_distance parallel < n)) as [|Hshort]; [done|].
    rewrite unblocked_groups_short in Hcount by lia. unfold len in Hcount.
    simpl in Hcount. lia. }
  split; [done|]. split; [apply unblocked_groups_elem|].
  split; [apply unblocked_groups_NoDup|].
  rewrite Hnum. split; by apply unblocked_groups_length.
Qed.

Lemma unblocked_construction_groups_witness :
  ∃ self,
    SheetRMSDContent_init (ala <$> range0 8) 80 false None default_thresholdRMSD
      default_stepFunction false = Ok self
    ∧ getNumResidueBlocks self = 1.
Proof.
  destruct (SheetRMSDContent_init (ala <$> range0 8) 80 false None default_thresholdRMSD
              default_stepFunction false) as [self|e] eqn:E;
    [|vm_compute in E; discriminate].
  exists self. split; [done|].
  destruct (unblocked_construction_groups _ _ _ _ _ _ _ E) as (_ & _ & _ & _ & _ & ->).
  reflexivity.
Defined.

(** *** With [blockSizes] *)

Lemma foldl_add_shift (acc : Z) (l : list Z) : foldl Z.add acc l = acc + py_sum l.
Proof.
  unfold py_sum. revert acc. induction l as [|x l IH]; intros acc; simpl; [lia|].
  rewrite (IH (acc + x)), (IH (0 + x)). lia.
Qed.

Lemma py_sum_cons (x : Z) (l : list Z) : py_sum (x :: l) = x + py_sum l.
Proof. unfold py_sum at 1. simpl. apply foldl_add_shift. Qed.

Lemma block_start_0 (sizes : list Z) : block_start sizes 0 = 0.
Proof. done. Qed.

Lemma block_start_S (a : Z) (sizes : list Z) (k : nat) :
  block_start (a :: sizes) (S k) = a + block_start sizes k.
Proof. unfold block_start. simpl. apply py_sum_cons. Qed.

Lemma cumsum_from_lookup (sizes : list Z) (acc : Z) (k : nat) :
  (k < length sizes)%nat →
  cumsum_from acc sizes !! k = Some (acc + block_start sizes (S k)).
Proof.
  revert acc k. induction sizes as [|a sizes IH]; intros acc k Hk; simpl in *; [lia|].
  destruct k as [|k]; simpl.
  - rewrite block_start_S, block_start_0. f_equal. lia.
  - rewrite IH by lia. f_equal. rewrite (block_start_S a sizes (S k)). lia.
Qed.

Lemma block_bounds_lookup (sizes : list Z) (k : nat) :
  (k ≤ length sizes)%nat → block_bounds sizes !! k = Some (block_start sizes k).
Proof.
  intros Hk. unfold block_bounds, cumsum. destruct k as [|k]; simpl; [done|].
  by rewrite cumsum_from_lookup by lia.
Qed.

Lemma block_bounds_index (sizes : list Z) (k : Z) :
  0 ≤ k ≤ len sizes →
  py_index (block_bounds sizes) k = Ok (block_start sizes (Z.to_nat k)).
Proof.
  intros Hk. apply py_index_Ok; [lia|]. apply block_bounds_lookup. unfold len in Hk. lia.
Qed.

(** The groups of the pair of blocks [k], [k + 1]. *)
Lemma blocked_groups_Ok (sizes : list Z) :
  blocked_groups sizes =
  Ok (range0 (len sizes - 1) ≫= fun k =>
        block_pair_groups (block_start sizes (Z.to_nat k))
          (block_start sizes (Z.to_nat (k + 1))) (block_start sizes (Z.to_nat (k + 2)))).
Proof.
  unfold blocked_groups.
  rewrite (map_result_Ok _ (fun k =>
             block_pair_groups (block_start sizes (Z.to_nat k))
               (block_start sizes (Z.to_nat (k + 1)))
               (block_start sizes (Z.to_nat (k + 2))))).
  - simpl. f_equal. generalize (range0 (len sizes - 1)). intros l.
    induction l as [|k l IH]; [done|]. rewrite fmap_cons, bind_cons. simpl. by rewrite IH.
  - intros k Hk. apply range_elem in Hk.
    rewrite !block_bounds_index by lia. done.
Qed.

Lemma block_pair_groups_elem (lo mid hi : Z) (g : list Z) :
  g ∈ block_pair_groups lo mid hi ↔
  ∃ i j, lo ≤ i < mid - 2 ∧ mid ≤ j < hi - 2 ∧ g = group_of i j.
Proof.
  unfold block_pair_groups. rewrite list_elem_of_bind. split.
  - intros (i & Hg & Hi). apply group_row_elem in Hg as (j & Hj & ->).
    apply range_elem in Hi. by exists i, j.
  - intros (i & j & Hi & Hj & ->). exists i. split.
    + apply group_row_elem. by exists j.
    + by apply range_elem.
Qed.

Lemma block_pair_groups_length (lo mid hi : Z) :
  len (block_pair_groups lo mid hi) = Z.max 0 (mid - lo - 2) * Z.max 0 (hi - mid - 2).
Proof.
  unfold len, block_pair_groups.
  assert (∀ l : list Z, Z.of_nat (length (l ≫= fun i =>
            range mid (hi - 2) ≫= fun j => [group_of i j]))
          = Z.of_nat (length l) * Z.max 0 (hi - mid - 2)) as H.
  { induction l as [|i l IH]; [done|].
    rewrite bind_cons, length_app, Nat2Z.inj_add, IH, singleton_bind_length, range_length.
    simpl length. lia. }
  rewrite H, range_length. lia.
Qed.

Lemma bind_len_sumZ {B : Type} (f : Z → list B) (l : list Z) :
  len (l ≫= f) = sumZ (fun k => len (f k)) l.
Proof.
  unfold len. induction l as [|k l IH]; [done|].
  rewrite bind_cons, length_app, Nat2Z.inj_add, IH. done.
Qed.

Lemma sumZ_cons (f : Z → Z) (k : Z) (l : list Z) : sumZ f (k :: l) = f k + sumZ f l.
Proof. done. Qed.

Lemma sumZ_ext (f g : Z → Z) (l : list Z) :
  (∀ k, k ∈ l → f k = g k) → sumZ f l = sumZ g l.
Proof.
  induction l as [|k l IH]; intros H; simpl; [done|].
  rewrite (H k) by left. rewrite IH; [done|]. intros k' Hk'. apply H. by right.
Qed.

Lemma sumZ_fmap (f : Z → Z) (h : Z → Z) (l : list Z) :
  sumZ f (h <$> l) = sumZ (fun k => f (h k)) l.
Proof. induction l as [|k l IH]; [done|]. by rewrite fmap_cons, !sumZ_cons, IH. Qed.

Lemma range0_succ (m : Z) : 0 < m → range0 m = 0 :: (Z.add 1 <$> range0 (m - 1)).
Proof.
  intros Hm. unfold range0, range. rewrite seqZ_cons by lia. f_equal.
  rewrite fmap_add_seqZ. f_equal; lia.
Qed.

(** The sizes of consecutive blocks, multiplied pair by pair and added up, as
    the enumeration counts them. *)
Lemma block_pairs_sum (sizes : list Z) :
  sumZ (fun k =>
          Z.max 0 (block_start sizes (Z.to_nat (k + 1)) - block_start sizes (Z.to_nat k) - 2)
          * Z.max 0 (block_start sizes (Z.to_nat (k + 2))
                     - block_start sizes (Z.to_nat (k + 1)) - 2))
       (range0 (len sizes - 1))
  = block_pairs_count sizes.
Proof.
  induction sizes as [|a rest IH]; [done|].
  destruct rest as [|b rest']; [done|].
  rewrite range0_succ by (unfold len; simpl; lia).
  rewrite sumZ_cons.
  rewrite sumZ_fmap.
  replace (len (a :: b :: rest') - 1 - 1) with (len (b :: rest') - 1)
    by (unfold len; simpl; lia).
  rewrite (sumZ_ext _ (fun k =>
          Z.max 0 (block_start (b :: rest') (Z.to_nat (k + 1))
                   - block_start (b :: rest') (Z.to_nat k) - 2)
          * Z.max 0 (block_start (b :: rest') (Z.to_nat (k + 2))
                     - block_start (b :: rest') (Z.to_nat (k + 1)) - 2))).
  - rewrite IH. cbn [block_pairs_count]. f_equal.
    change (Z.to_nat (0 + 1)) with 1%nat. change (Z.to_nat (0 + 2)) with 2%nat.
    change (Z.to_nat 0) with 0%nat.
    rewrite !block_start_S, !block_start_0. f_equal; lia.
  - intros k Hk. apply range_elem in Hk.
    replace (Z.to_nat (1 + k)) with (S (Z.to_nat k)) by lia.
    replace (Z.to_nat (1 + k + 1)) with (S (Z.to_nat (k + 1))) by lia.
    replace (Z.to_nat (1 + k + 2)) with (S (Z.to_nat (k + 2))) by lia.
    rewrite !block_start_S. f_equal; lia.
Qed.

Lemma blocked_groups_length (sizes : list Z) (groups : list (list Z)) :
  blocked_groups sizes = Ok groups → len groups = block_pairs_count sizes.
Proof.
  rewrite blocked_groups_Ok. intros [= <-].
  rewrite bind_len_sumZ. rewrite <-block_pairs_sum.
  apply sumZ_ext. intros k _. apply block_pair_groups_length.
Qed.

Lemma block_pairs_formula_count (sizes : list Z) :
  Forall (fun s => 2 ≤ s) sizes → block_pairs_count sizes = block_pairs_formula sizes.
Proof.
  induction 1 as [|a rest Ha Hrest IH]; [done|].
  destruct rest as [|b rest']; [done|].
  change (Z.max 0 (a - 2) * Z.max 0 (b - 2) + block_pairs_count (b :: rest')
          = (a - 2) * (b - 2) + block_pairs_formula (b :: rest')).
  rewrite IH. apply Forall_cons in Hrest as [Hb _]. cbv beta in Ha, Hb.
  by rewrite !Z.max_r by lia.
Qed.

Lemma blocked_groups_elem (sizes : list Z) (groups : list (list Z)) (g : list Z) :
  blocked_groups sizes = Ok groups →
  g ∈ groups ↔
  ∃ (k : nat) (i j : Z),
    (S k < length sizes)%nat
    ∧ block_start sizes k ≤ i < block_start sizes (S k) - 2
    ∧ block_start sizes (S k) ≤ j < block_start sizes (S (S k)) - 2
    ∧ g = group_of i j.
Proof.
  rewrite blocked_groups_Ok. intros [= <-]. rewrite list_elem_of_bind. split.
  - intros (k & Hg & Hk). apply range_elem in Hk. unfold len in Hk.
    apply block_pair_groups_elem in Hg as (i & j & Hi & Hj & ->).
    replace (Z.to_nat (k + 1)) with (S (Z.to_nat k)) in * by lia.
    replace (Z.to_nat (k + 2)) with (S (S (Z.to_nat k))) in * by lia.
    exists (Z.to_nat k), i, j. split; [lia|done].
  - intros (k & i & j & Hk & Hi & Hj & ->). exists (Z.of_nat k). split.
    + apply block_pair_groups_elem. exists i, j.
      replace (Z.to_nat (Z.of_nat k + 1)) with (S k) by lia.
      replace (Z.to_nat (Z.of_nat k + 2)) with (S (S k)) by lia.
      by rewrite Nat2Z.id.
    + apply range_elem. unfold len. lia.
Qed.

(** C4, as the code has it: a construction with [blockSizes] raises the
    [ValueError] about block sizes when they do not add up to the number of
    residues; a construction that succeeds has enumerated exactly the groups
    [i, i+1, i+2, j, j+1, j+2] with [i] in block [k] and [j] in block [k+1], the
    last two residues of each block left out, for consecutive blocks, and
    their number is the sum of [max(n_k - 2, 0) * max(n_(k+1) - 2, 0)], which
    is the sum of [(n_k - 2) * (n_(k+1) - 2)] when no block has fewer than two
    residues. *)
Theorem blocked_construction_groups (residues : list Residue) (numAtoms : Z)
    (parallel : bool) (blockSizes : list Z) (thresholdRMSD stepFunction : string)
    (normalize : bool) :
  let n := len residues in
  (py_sum blockSizes ≠ n →
   SheetRMSDContent_init residues numAtoms parallel (Some blockSizes) thresholdRMSD
     stepFunction normalize
   = Raise (ValueError (block_sum_mismatch (py_sum blockSizes) n)))
  ∧ (∀ self,
       SheetRMSDContent_init residues numAtoms parallel (Some blockSizes) thresholdRMSD
         stepFunction normalize = Ok self →
       py_sum blockSizes = n
       ∧ ∃ groups,
           residue_groups n parallel (Some blockSizes) = Ok groups
           ∧ (∀ g, g ∈ groups ↔
                   ∃ (k : nat) (i j : Z),
                     (S k < length blockSizes)%nat
                     ∧ block_start blockSizes k ≤ i < block_start blockSizes (S k) - 2
                     ∧ block_start blockSizes (S k) ≤ j
                       < block_start blockSizes (S (S k)) - 2
                     ∧ g = [i; i + 1; i + 2; j; j + 1; j + 2])
           ∧ len groups = block_pairs_count blockSizes
           ∧ getNumResidueBlocks self = block_pairs_count blockSizes
           ∧ (Forall (fun s => 2 ≤ s) blockSizes →
              getNumResidueBlocks self = block_pairs_formula blockSizes)).
Proof.
  intros n. unfold SheetRMSDContent_init, residue_groups. fold n. split.
  - intros Hsum. by rewrite bool_decide_eq_false_2.
  - intros self. case_bool_decide as Hsum; [|discriminate]. intros Hinit.
    split; [done|].
    destruct (blocked_groups blockSizes) as [groups|e] eqn:Hgroups; [|discriminate].
    simpl in Hinit. apply RMSDContent_init_Ok_inv in Hinit as (_ & Hnum & _).
    exists groups. split; [done|]. split; [intros g; by apply blocked_groups_elem|].
    pose proof (blocked_groups_length _ _ Hgroups) as Hlen.
    split; [done|]. rewrite Hnum, Hlen. split; [done|].
    apply block_pairs_formula_count.
Qed.

(** C4 as it is worded fails on twelve residues in blocks of 1, 1, 5 and 5: the
    construction succeeds with 9 groups, and the sum of
    [(n_k - 2) * (n_(k+1) - 2)] is 7. *)
Lemma blocked_count_counterexample :
  ∃ self,
    SheetRMSDContent_init (ala <$> range0 12) 120 false (Some [1; 1; 5; 5])
      default_thresholdRMSD default_stepFunction false = Ok self
    ∧ getNumResidueBlocks self = 9
    ∧ block_pairs_formula [1; 1; 5; 5] = 7
    ∧ getNumResidueBlocks self ≠ block_pairs_formula [1; 1; 5; 5].
Proof.
  destruct (SheetRMSDContent_init (ala <$> range0 12) 120 false (Some [1; 1; 5; 5])
              default_thresholdRMSD default_stepFunction false) as [self|e] eqn:E;
    [|vm_compute in E; discriminate].
  exists self. split; [done|].
  assert (getNumResidueBlocks self = 9) as H.
  { vm_compute in E. by injection E as <-. }
  rewrite H. by repeat split.
Qed.

(** ** The final loop of [RMSDContent.__init__] *)

Ltac zdiv := Z.div_mod_to_equations; lia.

Lemma num_chunks_multiple (q : Z) : num_chunks (32 * q) = q.
Proof. unfold num_chunks. zdiv. Qed.

Lemma num_chunks_within (q r : Z) : 0 < r ≤ 32 → num_chunks (32 * q + r) = q + 1.
Proof. unfold num_chunks. zdiv. Qed.

Lemma range0_snoc (k : Z) : 0 ≤ k → range0 (k + 1) = range0 k ++ [k].
Proof. apply range_snoc. Qed.

Lemma range0_length (k : Z) : length (range0 k) = Z.to_nat k.
Proof. unfold range0. rewrite range_length. f_equal. lia. Qed.

Lemma fmap_ext_elem {A B : Type} (f g : A → B) (l : list A) :
  (∀ a, a ∈ l → f a = g a) → f <$> l = g <$> l.
Proof.
  intros H. apply list_fmap_ext. intros i a Ha. apply H. by eapply list_elem_of_lookup_2.
Qed.

Lemma addCollectiveVariable_here (name : string) (v : cv) (f : CustomCVForce) (h : store) :
  addCollectiveVariable 0 name v (f :: h)
  = mkForce (energy f) (variables f ++ [(name, v)]) :: h.
Proof. done. Qed.

Lemma addCollectiveVariable_further (a : nat) (name : string) (v : cv) (f : CustomCVForce)
    (h : store) :
  addCollectiveVariable (S a) name v (f :: h) = f :: addCollectiveVariable a name v h.
Proof. done. Qed.

Lemma addCollectiveVariable_last (a : nat) (name : string) (v : cv) (f : CustomCVForce)
    (h : store) :
  a = length h →
  addCollectiveVariable a name v (h ++ [f])
  = h ++ [mkForce (energy f) (variables f ++ [(name, v)])].
Proof.
  intros ->. unfold addCollectiveVariable.
  rewrite <-(Nat.add_0_r (length h)). by rewrite alter_app_r.
Qed.

Section Loop.
Variables (n : Z) (stepFunction thresholdRMSD : string).
Variables (ideal_positions : Positions) (block_atoms : list (list Z)) (numAtoms : Z).
Variable normalize : bool.
Hypothesis block_atoms_len : len block_atoms = n.

Abbreviation body :=
  (loop_body n stepFunction thresholdRMSD ideal_positions block_atoms numAtoms).
Abbreviation entry := (rmsd_entry ideal_positions block_atoms numAtoms).
Abbreviation chunk := (chunk_after n stepFunction thresholdRMSD ideal_positions block_atoms numAtoms).
Abbreviation chunked :=
  (chunked_after n stepFunction thresholdRMSD ideal_positions block_atoms numAtoms normalize).
Abbreviation single :=
  (single_after n stepFunction thresholdRMSD ideal_positions block_atoms numAtoms normalize).
Abbreviation after := (force_after n).

Lemma block_atoms_index (k : Z) :
  0 ≤ k < n →
  py_index block_atoms k = Ok (default [] (block_atoms !! Z.to_nat k)).
Proof.
  intros Hk. pose proof block_atoms_len as Hlen. unfold len in Hlen.
  assert (Z.to_nat k < length block_atoms)%nat as Hlt by lia.
  destruct (lookup_lt_is_Some_2 _ _ Hlt) as [atoms Hatoms].
  rewrite Hatoms. apply py_index_Ok; [lia|done].
Qed.

Lemma chunk_after_full (k k' c : Z) :
  32 * c + 32 ≤ k → 32 * c + 32 ≤ k' → chunk k c = chunk k' c.
Proof. intros Hk Hk'. unfold chunk_after. by rewrite !Z.min_l by lia. Qed.

Lemma loop_body_single (k : Z) :
  n ≤ 32 → 0 ≤ k < n → body (single k, after k) k = Ok (single (k + 1), after (k + 1)).
Proof.
  intros Hn Hk. unfold loop_body, force_after.
  rewrite (proj2 (Z.leb_le n 32)) by done.
  rewrite bool_decide_eq_false_2 by lia.
  rewrite block_atoms_index by done. simpl.
  unfold single_after. by rewrite range0_snoc, fmap_app by lia.
Qed.

Lemma loop_body_chunked (k : Z) :
  32 < n → 0 ≤ k < n → body (chunked k, after k) k = Ok (chunked (k + 1), after (k + 1)).
Proof.
  intros Hn Hk. unfold loop_body, force_after.
  rewrite (proj2 (Z.leb_gt n 32)) by done.
  rewrite (proj2 (Z.leb_gt (k + 1) 0)) by lia.
  pose proof (Z.div_mod k 32 ltac:(lia)) as Hdiv.
  pose proof (Z.mod_pos_bound k 32 ltac:(lia)) as Hmod.
  set (q := k `div` 32) in *. set (r := k `mod` 32) in *.
  assert (0 ≤ q) as Hq by (unfold q; zdiv).
  destruct (decide (r = 0)) as [Hr|Hr].
  - (* a new chunk starts with this group *)
    rewrite bool_decide_eq_true_2 by (split; [lia|done]).
    assert (k = 32 * q) as Hkq by lia.
    assert (num_chunks k = q) as Hnk by (rewrite Hkq; apply num_chunks_multiple).
    assert (num_chunks (k + 1) = q + 1) as Hnk1
      by (rewrite Hkq; apply num_chunks_within; lia).
    unfold new_force, chunked_after. rewrite Hnk, Hnk1.
    rewrite block_atoms_index by done.
    cbn [length]. rewrite length_fmap, range0_length.
    rewrite <-app_comm_cons, addCollectiveVariable_here.
    cbn [mbind result_bind]. rewrite addCollectiveVariable_further.
    rewrite addCollectiveVariable_last by (by rewrite length_fmap, range0_length).
    rewrite range0_snoc, !fmap_app by lia. cbn [energy variables fmap list_fmap app].
    replace (Z.to_nat (q + 1)) with (S (Z.to_nat q)) by lia.
    assert (chunk k <$> range0 q = chunk (k + 1) <$> range0 q) as ->.
    { apply fmap_ext_elem. intros c Hc. apply range_elem in Hc.
      apply chunk_after_full; lia. }
    assert (chunk (k + 1) q
            = mkForce (expression n stepFunction thresholdRMSD k) [entry k]) as ->.
    { unfold chunk_after. rewrite <-Hkq. f_equal.
      rewrite Z.min_r by lia. rewrite range_snoc by lia.
      by rewrite range_empty by lia. }
    done.
  - (* the group joins the chunk in progress *)
    rewrite bool_decide_eq_false_2 by (intros [_ ?]; done).
    assert (num_chunks k = q + 1) as Hnk
      by (rewrite Hdiv; apply num_chunks_within; lia).
    assert (num_chunks (k + 1) = q + 1) as Hnk1.
    { replace (k + 1) with (32 * q + (r + 1)) by lia. apply num_chunks_within. lia. }
    rewrite (proj2 (Z.leb_gt k 0)) by lia.
    rewrite block_atoms_index by done. unfold chunked_after. rewrite Hnk, Hnk1.
    cbn [mbind result_bind].
    replace (Z.to_nat (q + 1)) with (S (Z.to_nat q)) by lia.
    rewrite addCollectiveVariable_further.
    rewrite range0_snoc, !fmap_app by lia. cbn [fmap list_fmap].
    rewrite addCollectiveVariable_last by (by rewrite length_fmap, range0_length).
    do 4 f_equal.
    + apply fmap_ext_elem. intros c Hc. apply range_elem in Hc.
      apply chunk_after_full; lia.
    + unfold chunk_after. cbn [energy variables]. do 2 f_equal.
      rewrite !Z.min_r by lia. by rewrite range_snoc, fmap_app by lia.
Qed.

Lemma loop_rounds (k : nat) :
  Z.of_nat k ≤ n →
  for_each body (range0 (Z.of_nat k))
    (if n <=? 32 then single 0 else chunked 0, after 0)
  = Ok (if n <=? 32 then single (Z.of_nat k) else chunked (Z.of_nat k),
        after (Z.of_nat k)).
Proof.
  induction k as [|k IH]; intros Hk; [done|].
  replace (Z.of_nat (S k)) with (Z.of_nat k + 1) by lia.
  rewrite range0_snoc, for_each_app, IH by lia.
  cbn [mbind result_bind for_each].
  destruct (n <=? 32) eqn:Hn.
  - apply Z.leb_le in Hn. by rewrite loop_body_single by lia.
  - apply Z.leb_gt in Hn. by rewrite loop_body_chunked by lia.
Qed.

Lemma loop_result :
  0 ≤ n →
  for_each body (range0 n) (if n <=? 32 then single 0 else chunked 0, after 0)
  = Ok (final_store n stepFunction thresholdRMSD ideal_positions block_atoms numAtoms
          normalize, after n).
Proof.
  intros Hn. pose proof (loop_rounds (Z.to_nat n)) as H.
  rewrite Z2Nat.id in H by done. rewrite H by lia. unfold final_store.
  by destruct (n <=? 32).
Qed.

Lemma loop_from_start :
  0 ≤ n →
  for_each body (range0 n)
    ([mkForce (self_energy n stepFunction thresholdRMSD normalize) []],
     if n <=? 32 then Some self_address else None)
  = Ok (final_store n stepFunction thresholdRMSD ideal_positions block_atoms numAtoms
          normalize, after n).
Proof.
  intros Hn. rewrite <-loop_result by done. unfold force_after.
  by destruct (n <=? 32).
Qed.
End Loop.

(** ** What [RMSDContent.__init__] returns *)

Lemma block_atoms_of_length (residues : list Residue) (residue_blocks block_atoms : list (list Z)) :
  block_atoms_of residues residue_blocks = Ok block_atoms →
  len block_atoms = len residue_blocks.
Proof.
  unfold block_atoms_of. destruct (map_result _getAtomList residues); [|discriminate].
  simpl. intros H. apply map_result_length in H. unfold len. by rewrite H.
Qed.

(** Once the number of groups has passed the check, the construction fails only
    where [block_atoms] cannot be computed, and otherwise leaves the store
    [final_store]. *)
Lemma RMSDContent_init_store (residue_blocks : list (list Z)) (ideal_positions : Positions)
    (residues : list Residue) (numAtoms : Z) (thresholdRMSD stepFunction : string)
    (normalize : bool) :
  1 ≤ len residue_blocks ≤ 1024 →
  RMSDContent_init residue_blocks ideal_positions residues numAtoms thresholdRMSD
    stepFunction normalize
  = (block_atoms ← block_atoms_of residues residue_blocks ;
     Ok (mkRMSDContent
           (final_store (len residue_blocks) stepFunction thresholdRMSD ideal_positions
              block_atoms numAtoms normalize)
           (len residue_blocks))).
Proof.
  intros Hn. unfold RMSDContent_init.
  rewrite (proj2 (Z.leb_le 1 _)), (proj2 (Z.leb_le _ 1024)) by lia. cbn [negb andb].
  destruct (block_atoms_of residues residue_blocks) as [block_atoms|e] eqn:Hatoms.
  - pose proof (block_atoms_of_length _ _ _ Hatoms) as Hlen.
    unfold block_atoms_of in Hatoms.
    destruct (map_result _getAtomList residues) as [residue_atoms|e]; [|discriminate].
    cbn [mbind result_bind] in Hatoms |- *. rewrite Hatoms.
    pose proof (loop_from_start (len residue_blocks) stepFunction thresholdRMSD
                  ideal_positions block_atoms numAtoms normalize Hlen ltac:(lia)) as Hloop.
    unfold self_energy, num_chunks in Hloop.
    destruct (len residue_blocks <=? 32) eqn:Hsmall;
      unfold new_force; cbn [app length mbind result_bind]; by rewrite Hloop.
  - unfold block_atoms_of in Hatoms.
    destruct (map_result _getAtomList residues) as [residue_atoms|e']; [|by injection Hatoms as ->].
    cbn [mbind result_bind] in Hatoms |- *. by rewrite Hatoms.
Qed.

Lemma RMSDContent_init_Ok (residue_blocks : list (list Z)) (ideal_positions : Positions)
    (residues : list Residue) (numAtoms : Z) (thresholdRMSD stepFunction : string)
    (normalize : bool) (self : RMSDContent) :
  RMSDContent_init residue_blocks ideal_positions residues numAtoms thresholdRMSD
    stepFunction normalize = Ok self →
  1 ≤ len residue_blocks ≤ 1024
  ∧ ∃ block_atoms,
      block_atoms_of residues residue_blocks = Ok block_atoms
      ∧ len block_atoms = len residue_blocks
      ∧ self = mkRMSDContent
                 (final_store (len residue_blocks) stepFunction thresholdRMSD
                    ideal_positions block_atoms numAtoms normalize)
                 (len residue_blocks).
Proof.
  intros Hinit. pose proof (RMSDContent_init_Ok_inv _ _ _ _ _ _ _ _ Hinit) as (Hn & _ & _).
  split; [done|]. rewrite RMSDContent_init_store in Hinit by done.
  destruct (block_atoms_of residues residue_blocks) as [block_atoms|e] eqn:Hatoms;
    [|discriminate].
  injection Hinit as <-. exists block_atoms.
  split; [done|]. split; [by eapply block_atoms_of_length|done].
Qed.

(** ** Names *)

Lemma var_x_inj (i j : Z) : var_x i = var_x j → i = j.
Proof. unfold var_x, str_int. intros [= H]. by apply (inj pretty). Qed.

Lemma var_rmsd_inj (i j : Z) : var_rmsd i = var_rmsd j → i = j.
Proof. unfold var_rmsd, str_int. intros [= H]. by apply (inj pretty). Qed.

Lemma var_chunk_inj (i j : Z) : var_chunk i = var_chunk j → i = j.
Proof. unfold var_chunk, str_int. intros [= H]. by apply (inj pretty). Qed.

Lemma assoc_fmap {A : Type} (key : Z → string) (val : Z → A) (l : list Z) (i : Z) :
  (∀ a b, key a = key b → a = b) → i ∈ l →
  assoc (key i) ((fun j => (key j, val j)) <$> l) = Some (val i).
Proof.
  intros Hinj. induction l as [|j l IH]; intros Hi; [by apply elem_of_nil in Hi|].
  rewrite fmap_cons. cbn [assoc]. case_bool_decide as Hkey.
  - by rewrite (Hinj _ _ Hkey).
  - apply IH. apply elem_of_cons in Hi as [->|Hi]; done.
Qed.

Lemma find_def_fmap (thresholdRMSD : string) (l : list Z) (i : Z) :
  i ∈ l →
  find_def (var_x i) ((fun j => mkDef (var_x j) (var_rmsd j) thresholdRMSD) <$> l)
  = Some (mkDef (var_x i) (var_rmsd i) thresholdRMSD).
Proof.
  induction l as [|j l IH]; intros Hi; [by apply elem_of_nil in Hi|].
  rewrite fmap_cons. cbn [find_def def_name]. case_bool_decide as Hkey.
  - by rewrite (var_x_inj _ _ Hkey).
  - apply IH. apply elem_of_cons in Hi as [->|Hi]; done.
Qed.

Lemma mapM_fmap_ext {A A' B C : Type} (f : B → option C) (f' : A' → option C)
    (g : A → B) (g' : A → A') (l : list A) :
  (∀ a, a ∈ l → f (g a) = f' (g' a)) → mapM f (g <$> l) = mapM f' (g' <$> l).
Proof.
  induction l as [|a l IH]; intros H; [done|].
  rewrite !fmap_cons. cbn [mapM]. rewrite (H a) by left.
  rewrite IH; [done|]. intros a' Ha'. apply H. by right.
Qed.

Lemma mapM_fmap_values {A B C : Type} (f : B → option C) (g : A → B) (g' : A → C)
    (l : list A) :
  (∀ a, a ∈ l → f (g a) = Some (g' a)) → mapM f (g <$> l) = Some (g' <$> l).
Proof.
  induction l as [|a l IH]; intros H; [done|].
  rewrite !fmap_cons. cbn [mapM]. rewrite (H a) by left. rewrite IH; [done|].
  intros a' Ha'. apply H. by right.
Qed.

Lemma fmap_lookup_default {A B : Type} (d : A) (f : A → B) (l : list A) :
  (fun i => f (default d (l !! Z.to_nat i))) <$> range0 (len l) = f <$> l.
Proof.
  apply list_eq. intros i. rewrite !list_lookup_fmap. unfold range0, range, len.
  destruct (l !! i) as [a|] eqn:Hi; simpl.
  - rewrite lookup_seqZ_lt by (apply lookup_lt_Some in Hi; lia). simpl.
    by rewrite Z.add_0_l, Nat2Z.id, Hi.
  - rewrite lookup_seqZ_ge; [done|]. apply lookup_ge_None in Hi. lia.
Qed.

(** ** Values *)

Section Values.
Context {V : Type}.
Variables (add : V → V → V) (text_value : string → (string → option V) → option V).
Variables (over_threshold : V → string → V) (over_count : V → Z → V).
Variable rmsd_value : Positions → list Z → Z → V.
Hypothesis add_assoc : ∀ a b c, add a (add b c) = add (add a b) c.

Abbreviation sum_of := (sum_values add).
Abbreviation value_at := (force_value add text_value over_threshold over_count rmsd_value).

Lemma foldl_add_assoc (a b : V) (l : list V) :
  foldl add (add a b) l = add a (foldl add b l).
Proof.
  revert b. induction l as [|c l IH]; intros b; simpl; [done|].
  by rewrite <-add_assoc, IH.
Qed.

Lemma sum_values_app (l1 l2 : list V) (a b : V) :
  sum_of l1 = Some a → sum_of l2 = Some b → sum_of (l1 ++ l2) = Some (add a b).
Proof.
  destruct l1 as [|x l1]; [discriminate|]. destruct l2 as [|y l2]; [discriminate|].
  simpl. intros [= <-] [= <-]. f_equal.
  by rewrite foldl_app, <-foldl_add_assoc.
Qed.

Lemma sum_values_nonempty (l : list V) : l ≠ [] → is_Some (sum_of l).
Proof. by destruct l. Qed.

(** Summing the sums of consecutive non-empty chunks, or summing everything. *)
Lemma sum_values_chunks (ls : list (list V)) :
  (∀ l, l ∈ ls → l ≠ []) →
  mapM sum_of ls ≫= sum_of = sum_of (concat ls).
Proof.
  induction ls as [|l ls IH]; intros Hne; [done|].
  destruct (sum_values_nonempty l) as [v Hv]; [apply Hne; left|].
  cbn [mapM concat]. rewrite Hv. cbn [mbind option_bind].
  destruct ls as [|l' ls].
  - cbn [mapM concat mbind option_bind mret option_ret]. by rewrite app_nil_r.
  - assert (∀ l0, l0 ∈ l' :: ls → l0 ≠ []) as Hne' by (intros l0 H0; apply Hne; by right).
    specialize (IH Hne').
    destruct (mapM sum_of (l' :: ls)) as [vs|] eqn:Hvs.
    + cbn [mbind option_bind mret option_ret] in IH |- *.
      destruct (sum_of vs) as [w|] eqn:Hw.
      * rewrite (sum_values_app l (concat (l' :: ls)) v w) by done.
        apply (sum_values_app [v] vs v w); done.
      * destruct (sum_values_nonempty (concat (l' :: ls))) as [w Hw'].
        { destruct l' as [|x l']; [by destruct (Hne' []); [left|]|done]. }
        congruence.
    + cbn [mbind option_bind] in IH |- *.
      destruct (sum_values_nonempty (concat (l' :: ls))) as [w Hw'].
      { destruct l' as [|x l']; [by destruct (Hne' []); [left|]|done]. }
      congruence.
Qed.

Section Stores.
Variables (n : Z) (stepFunction thresholdRMSD : string).
Variables (ideal_positions : Positions) (block_atoms : list (list Z)) (numAtoms : Z).
Variable step : V → V.
Hypothesis block_atoms_len : len block_atoms = n.
Hypothesis stepFunction_reads : reads_as text_value step stepFunction.

Abbreviation entry := (rmsd_entry ideal_positions block_atoms numAtoms).
Abbreviation term_of :=
  (group_term over_threshold rmsd_value step ideal_positions numAtoms thresholdRMSD).
Abbreviation term_at := (fun i : Z => term_of (default [] (block_atoms !! Z.to_nat i))).

(** A force that owns the terms of the groups [indices] and their [RMSD]
    variables is worth the sum of these terms. *)
Lemma terms_force_value (fuel : nat) (h : store) (address : nat) (indices : list Z) :
  h !! address
  = Some (mkForce
            (WithDefs (Sum ((fun i => Step stepFunction (var_x i)) <$> indices))
               ((fun i => mkDef (var_x i) (var_rmsd i) thresholdRMSD) <$> indices))
            (entry <$> indices)) →
  value_at (S fuel) h address = sum_of (term_at <$> indices).
Proof.
  intros Hf. cbn [force_value]. rewrite Hf.
  cbn [mbind option_bind energy variables energy_value arith_value].
  rewrite (mapM_fmap_values _ _ term_at); [done|].
  intros i Hi. cbn [term_value render_term]. rewrite stepFunction_reads.
  unfold var_value. rewrite find_def_fmap by done. cbn [def_cv def_threshold].
  unfold rmsd_entry.
  rewrite (assoc_fmap var_rmsd
             (fun i => RMSD ideal_positions (default [] (block_atoms !! Z.to_nat i))
                         numAtoms)) by (done || apply var_rmsd_inj).
  done.
Qed.

Lemma chunk_ranges_concat (c : nat) :
  32 * Z.of_nat c ≤ n + 31 →
  concat ((fun c => term_at <$> range (32 * c) (Z.min (32 * c + 32) n))
            <$> range0 (Z.of_nat c))
  = term_at <$> range0 (Z.min (32 * Z.of_nat c) n).
Proof.
  induction c as [|c IH]; intros Hc.
  - unfold range0. by rewrite (range_empty 0 (Z.min _ _)) by lia.
  - replace (Z.of_nat (S c)) with (Z.of_nat c + 1) by lia.
    rewrite range0_snoc, fmap_app, concat_app, IH by lia.
    cbn [fmap list_fmap concat]. rewrite app_nil_r, <-fmap_app. f_equal.
    unfold range0. replace (32 * (Z.of_nat c + 1)) with (32 * Z.of_nat c + 32) by lia.
    rewrite (Z.min_l (32 * Z.of_nat c)) by lia.
    symmetry. apply range_split; lia.
Qed.

Lemma chunked_store_lookup (normalize : bool) (c : Z) :
  0 ≤ c < num_chunks n →
  chunked_after n stepFunction thresholdRMSD ideal_positions block_atoms numAtoms
    normalize n !! S (Z.to_nat c)
  = Some (chunk_after n stepFunction thresholdRMSD ideal_positions block_atoms
            numAtoms n c).
Proof.
  intros Hc. unfold chunked_after.
  change ((chunk_after n stepFunction thresholdRMSD ideal_positions block_atoms
             numAtoms n <$> range0 (num_chunks n)) !! Z.to_nat c = Some
          (chunk_after n stepFunction thresholdRMSD ideal_positions block_atoms
             numAtoms n c)).
  rewrite list_lookup_fmap. unfold range0. rewrite range_lookup by lia.
  simpl. f_equal. f_equal. lia.
Qed.

(** The sum of the chunk variables of a chunked store. *)
Lemma chunked_sum_value (fuel : nat) (normalize : bool) :
  32 < n →
  arith_value add text_value over_threshold over_count
    (fun name =>
       c ← assoc name (chunk_entry <$> range0 (num_chunks n)) ;
       match c with
       | RMSD referencePositions group numAtoms0 =>
           Some (rmsd_value referencePositions group numAtoms0)
       | ForceAt a =>
           value_at (S fuel)
             (chunked_after n stepFunction thresholdRMSD ideal_positions block_atoms
                numAtoms normalize n) a
       end)
    []
    (Sum ((fun i => Var (var_chunk i)) <$> range0 (num_chunks n)))
  = sum_of (term_at <$> range0 n).
Proof.
  intros Hn. cbn [arith_value].
  assert (0 ≤ num_chunks n ∧ 32 * num_chunks n ≤ n + 31 ∧ n ≤ 32 * num_chunks n)
    as (Hc0 & Hc1 & Hc2) by (unfold num_chunks; zdiv).
  rewrite (mapM_fmap_ext _ sum_of _
             (fun c => term_at <$> range (32 * c) (Z.min (32 * c + 32) n))).
  - rewrite sum_values_chunks.
    + pose proof (chunk_ranges_concat (Z.to_nat (num_chunks n))) as H.
      rewrite Z2Nat.id in H by done. rewrite H by done.
      by rewrite Z.min_r by done.
    + intros l Hl. apply list_elem_of_fmap in Hl as (c & -> & Hc).
      apply range_elem in Hc. intros Hnil.
      apply (f_equal length) in Hnil. rewrite length_fmap, range_length in Hnil.
      simpl in Hnil. lia.
  - intros c Hc. apply range_elem in Hc. cbn [term_value]. unfold var_value.
    cbn [find_def]. unfold chunk_entry.
    rewrite (assoc_fmap var_chunk (fun c => ForceAt (S (Z.to_nat c))))
      by (apply var_chunk_inj || (apply range_elem; lia)).
    cbn [mbind option_bind].
    apply terms_force_value. rewrite chunked_store_lookup by lia. done.
Qed.

Lemma aggregate_terms :
  aggregate add over_threshold rmsd_value step block_atoms ideal_positions numAtoms
    thresholdRMSD
  = sum_of (term_at <$> range0 n).
Proof. unfold aggregate. by rewrite <-block_atoms_len, (fmap_lookup_default [] term_of). Qed.

Lemma aggregate_is_Some : 1 ≤ n → is_Some (sum_of (term_at <$> range0 n)).
Proof.
  intros Hn. apply sum_values_nonempty. intros Hnil.
  apply (f_equal length) in Hnil. rewrite length_fmap, range0_length in Hnil.
  simpl in Hnil. lia.
Qed.

(** The single force of the unchunked assembly is worth the aggregate. *)
Lemma unchunked_value (fuel : nat) :
  value_at (S fuel)
    [unchunked_force block_atoms ideal_positions numAtoms thresholdRMSD stepFunction] 0
  = sum_of (term_at <$> range0 n).
Proof. apply terms_force_value. unfold unchunked_force. by rewrite block_atoms_len. Qed.

Abbreviation final := (final_store n stepFunction thresholdRMSD ideal_positions
                         block_atoms numAtoms).

(** Without normalization, [self] is worth the aggregate: at once when it
    owns the terms, through its chunks otherwise. *)
Lemma final_store_value (fuel : nat) :
  value_at (S (S fuel)) (final false) self_address = sum_of (term_at <$> range0 n).
Proof.
  unfold final_store. destruct (n <=? 32) eqn:Hsmall.
  - apply terms_force_value. unfold single_after, self_energy, expression.
    rewrite Hsmall. apply Z.leb_le in Hsmall.
    by rewrite (Z.min_r (0 + 32) n) by lia.
  - apply Z.leb_gt in Hsmall.
    change (value_at (S (S fuel)) ?h self_address)
      with (energy_value add text_value over_threshold over_count
              (fun name =>
                 c ← assoc name (chunk_entry <$> range0 (num_chunks n)) ;
                 match c with
                 | RMSD referencePositions group numAtoms0 =>
                     Some (rmsd_value referencePositions group numAtoms0)
                 | ForceAt a => value_at (S fuel) h a
                 end)
              (self_energy n stepFunction thresholdRMSD false)).
    unfold self_energy. rewrite (proj2 (Z.leb_gt n 32)) by done.
    cbn [energy_value]. by apply chunked_sum_value.
Qed.

(** With normalization and more than 32 groups, the aggregate divided by
    the number of groups. *)
Lemma final_store_value_normalized (fuel : nat) :
  32 < n →
  value_at (S (S fuel)) (final true) self_address
  = (fun v => over_count v n) <$> sum_of (term_at <$> range0 n).
Proof.
  intros Hn. unfold final_store. rewrite (proj2 (Z.leb_gt n 32)) by done.
  change (value_at (S (S fuel)) ?h self_address)
    with (energy_value add text_value over_threshold over_count
            (fun name =>
               c ← assoc name (chunk_entry <$> range0 (num_chunks n)) ;
               match c with
               | RMSD referencePositions group numAtoms0 =>
                   Some (rmsd_value referencePositions group numAtoms0)
               | ForceAt a => value_at (S fuel) h a
               end)
            (self_energy n stepFunction thresholdRMSD true)).
  unfold self_energy. rewrite (proj2 (Z.leb_gt n 32)) by done.
  cbn [energy_value arith_value]. f_equal.
  by apply (chunked_sum_value fuel true).
Qed.

(** With normalization and at most 32 groups, the parenthesis opened
    before the sum is closed after the definitions: no value. *)
Lemma final_store_value_normalized_small (fuel : nat) :
  n ≤ 32 → value_at fuel (final true) self_address = None.
Proof.
  intros Hn. destruct fuel as [|fuel]; [done|].
  unfold final_store, single_after, self_energy, expression.
  by rewrite (proj2 (Z.leb_le n 32)) by done.
Qed.

(** With more than 32 groups, fuel for one level does not reach the groups. *)
Lemma final_store_value_no_fuel (normalize : bool) :
  value_at 0 (final normalize) self_address = None.
Proof. done. Qed.
End Stores.
End Values.

(** ** The chunked assembly against the unchunked one *)

(** The sample engine reads [x*x], once [x] is replaced by a variable, as
    the square of that variable. *)
Lemma split_at_app (c : ascii) (s1 s2 : string) :
  split_at c s1 = None → split_at c (s1 +:+ String c s2) = Some (s1, s2).
Proof.
  induction s1 as [|c' s1 IH].
  - intros _. change (split_at c (String c s2) = Some (EmptyString, s2)).
    cbn [split_at]. by rewrite Ascii.eqb_refl.
  - change (String c' s1 +:+ String c s2) with (String c' (s1 +:+ String c s2)).
    cbn [split_at]. destruct (Ascii.eqb c' c); [done|]. intros H.
    destruct (split_at c s1) as [[? ?]|] eqn:E; [done|]. by rewrite IH.
Qed.

Lemma pretty_N_char_not_star (d : N) : pretty_N_char d ≠ "*"%char.
Proof. unfold pretty_N_char. by repeat case_match. Qed.

Lemma pretty_N_go_no_star (x : N) (s : string) :
  split_at "*" s = None → split_at "*" (pretty_N_go x s) = None.
Proof.
  revert s. induction (N.lt_wf_0 x) as [x _ IH]; intros s Hs.
  assert (x = 0 ∨ 0 < x)%N as [->|Hx] by lia.
  - by rewrite pretty_N_go_0.
  - rewrite pretty_N_go_step by done. apply IH; [by apply N.div_lt|].
    cbn [split_at]. rewrite Hs.
    destruct (Ascii.eqb _ _) eqn:E; [|done].
    apply Ascii.eqb_eq in E. by destruct (pretty_N_char_not_star (x `mod` 10)).
Qed.

Lemma pretty_N_no_star (x : N) : split_at "*" (pretty x) = None.
Proof.
  unfold pretty, pretty_N. case_decide; [done|]. by apply pretty_N_go_no_star.
Qed.

Lemma var_x_no_star (i : Z) : split_at "*" (var_x i) = None.
Proof.
  unfold var_x, str_int, pretty, pretty_Z. destruct i as [|p|p].
  - done.
  - change (split_at "*" (String "x" (pretty (N.pos p))) = None).
    cbn [split_at]. change (Ascii.eqb "x" "*") with false. cbv iota.
    by rewrite pretty_N_no_star.
  - change (split_at "*" (String "x" (String "-" (pretty (N.pos p)))) = None).
    cbn [split_at]. change (Ascii.eqb "x" "*") with false.
    change (Ascii.eqb "-" "*") with false. cbv iota.
    by rewrite pretty_N_no_star.
Qed.

Lemma string_app_empty (s : string) : s +:+ "" = s.
Proof.
  induction s as [|c s IH]; [done|].
  change (String c (s +:+ "") = String c s). by rewrite IH.
Qed.

Lemma sample_stepFunction_reads :
  reads_as sample_text_value sample_step sample_stepFunction.
Proof.
  intros i env. unfold sample_stepFunction. cbn [replace_char].
  change (Ascii.eqb "x" "x") with true. change (Ascii.eqb "*" "x") with false.
  cbv iota. rewrite string_app_empty. unfold sample_text_value.
  rewrite split_at_app by apply var_x_no_star.
  by destruct (env (var_x i)).
Qed.




(** ** The shape of the assembled expressions *)

Lemma expression_children (n : Z) (stepFunction thresholdRMSD : string) (start : Z) :
  (summed_children (expression n stepFunction thresholdRMSD start) ≤ 32)%nat.
Proof.
  unfold expression. cbn [summed_children]. rewrite length_fmap, range_length. lia.
Qed.

Lemma summed_children_wrap (normalize : bool) (e : expr) (n : Z) :
  summed_children (if normalize then Normalized e n else e) = summed_children e.
Proof. by destruct normalize. Qed.

Lemma final_store_children (n : Z) (stepFunction thresholdRMSD : string)
    (ideal_positions : Positions) (block_atoms : list (list Z)) (numAtoms : Z)
    (normalize : bool) :
  n ≤ 1024 →
  Forall (fun f => (summed_children (energy f) ≤ 32)%nat)
    (final_store n stepFunction thresholdRMSD ideal_positions block_atoms numAtoms normalize).
Proof.
  intros Hn. unfold final_store, single_after, chunked_after, self_energy.
  destruct (n <=? 32) eqn:Hsmall.
  - apply Forall_singleton. cbn [energy]. rewrite summed_children_wrap.
    apply expression_children.
  - apply Forall_cons. split.
    + cbn [energy]. rewrite summed_children_wrap. cbn [summed_children].
      rewrite length_fmap, range0_length. unfold num_chunks. zdiv.
    + apply Forall_fmap, Forall_forall. intros c _. apply expression_children.
Qed.

(** C3: a construction with [n] groups, [1 <= n <= 1024], leaves for [n <= 32]
    a single force whose expression sums the [n] terms [S(x_i)]; for [n > 32]
    it leaves [ceil(n/32) <= 32] chunk forces, chunk [c] owning the terms and
    the [RMSD] variables of the groups [32c, ..., min(32c+32, n) - 1], so that
    group [i] is in chunk [floor(i/32)], and [self] sums the [ceil(n/32)] chunk
    variables; no expression of the store sums more than 32 terms. *)
Theorem assembly_structure (residue_blocks : list (list Z)) (ideal_positions : Positions)
    (residues : list Residue) (numAtoms : Z) (thresholdRMSD stepFunction : string)
    (normalize : bool) (self : RMSDContent) :
  RMSDContent_init residue_blocks ideal_positions residues numAtoms thresholdRMSD
    stepFunction normalize = Ok self →
  let n := len residue_blocks in
  let chunks := (n + 31) `div` 32 in
  let wrap := fun e => if normalize then Normalized e n else e in
  let terms := fun indices =>
    WithDefs (Sum ((fun i => Step stepFunction (var_x i)) <$> indices))
             ((fun i => mkDef (var_x i) (var_rmsd i) thresholdRMSD) <$> indices) in
  ∃ block_atoms,
    block_atoms_of residues residue_blocks = Ok block_atoms
    ∧ 1 ≤ n ≤ 1024
    ∧ (n ≤ 32 →
       forces self
       = [mkForce (wrap (terms (range0 n)))
            (rmsd_entry ideal_positions block_atoms numAtoms <$> range0 n)])
    ∧ (32 < n →
       32 * (chunks - 1) < n ≤ 32 * chunks ∧ chunks ≤ 32
       ∧ forces self
         = mkForce (wrap (Sum ((fun c => Var (var_chunk c)) <$> range0 chunks)))
             ((fun c => (var_chunk c, ForceAt (S (Z.to_nat c)))) <$> range0 chunks)
           :: ((fun c =>
                  mkForce (terms (range (32 * c) (Z.min (32 * c + 32) n)))
                    (rmsd_entry ideal_positions block_atoms numAtoms
                       <$> range (32 * c) (Z.min (32 * c + 32) n)))
                 <$> range0 chunks)
       ∧ ∀ i, 0 ≤ i < n →
              0 ≤ i `div` 32 < chunks
              ∧ i ∈ range (32 * (i `div` 32)) (Z.min (32 * (i `div` 32) + 32) n))
    ∧ Forall (fun f => (summed_children (energy f) ≤ 32)%nat) (forces self).
Proof.
  intros Hinit n chunks wrap terms.
  apply RMSDContent_init_Ok in Hinit as (Hn & block_atoms & Hatoms & Hlen & ->).
  fold n in Hn, Hlen |- *. exists block_atoms. split; [done|]. split; [done|].
  cbn [forces]. split; [|split].
  - intros Hsmall. unfold final_store, single_after, self_energy, expression.
    rewrite (proj2 (Z.leb_le n 32)) by done.
    by rewrite (Z.min_r (0 + 32) n) by lia.
  - intros Hbig. split; [unfold chunks; zdiv|]. split; [unfold chunks; zdiv|].
    split.
    + unfold final_store. rewrite (proj2 (Z.leb_gt n 32)) by done.
      unfold chunked_after, self_energy. by rewrite (proj2 (Z.leb_gt n 32)) by done.
    + intros i Hi. split; [unfold chunks; zdiv|]. apply range_elem. zdiv.
  - apply final_store_children. lia.
Qed.

Lemma assembly_structure_witness :
  ∃ self,
    RMSDContent_init (unblocked_groups 16 false) ANTIBETA_POSITIONS (ala <$> range0 16) 160
      default_thresholdRMSD default_stepFunction false = Ok self
    ∧ Forall (fun f => (summed_children (energy f) ≤ 32)%nat) (forces self).
Proof.
  destruct (RMSDContent_init (unblocked_groups 16 false) ANTIBETA_POSITIONS
              (ala <$> range0 16) 160 default_thresholdRMSD default_stepFunction false)
    as [self|e] eqn:E; [|vm_compute in E; discriminate].
  destruct (assembly_structure _ _ _ _ _ _ _ self E) as (_ & _ & _ & _ & _ & H).
  by exists self.
Defined.

(** ** The check on the number of groups *)

Lemma pretty_N_char_not_A (d : N) : pretty_N_char d ≠ "A"%char.
Proof. unfold pretty_N_char. by repeat case_match. Qed.

(** Printing a number in front of a text that does not start with [A] gives a
    text that does not start with [A]. *)
Lemma pretty_N_go_first_char (x : N) (s : string) :
  (∃ c s', s = String c s' ∧ c ≠ "A"%char) →
  ∃ c s', pretty_N_go x s = String c s' ∧ c ≠ "A"%char.
Proof.
  revert s. induction (N.lt_wf_0 x) as [x _ IH]; intros s Hs.
  assert (x = 0 ∨ 0 < x)%N as [->|Hx] by lia.
  - by rewrite pretty_N_go_0.
  - rewrite pretty_N_go_step by done. apply IH.
    + by apply N.div_lt.
    + eexists _, _. split; [done|]. apply pretty_N_char_not_A.
Qed.

Lemma pretty_positive_first_char (p : positive) :
  ∃ c s, pretty p = String c s ∧ c ≠ "A"%char.
Proof.
  unfold pretty, pretty_positive, pretty, pretty_N.
  rewrite decide_False by done. rewrite pretty_N_go_step by done.
  apply pretty_N_go_first_char. eexists _, _. split; [done|]. apply pretty_N_char_not_A.
Qed.

Lemma str_int_first_char (z : Z) : ∃ c s, str_int z = String c s ∧ c ≠ "A"%char.
Proof.
  unfold str_int, pretty, pretty_Z. destruct z as [|p|p].
  - by eexists _, _.
  - apply pretty_positive_first_char.
  - by eexists _, _.
Qed.

Lemma blocks_out_of_range_not_atom (num_residues num_residue_blocks : Z) (atom : string)
    (residue : Residue) :
  blocks_out_of_range num_residues num_residue_blocks ≠ atom_not_found atom residue.
Proof.
  intros H. apply (f_equal first_char) in H.
  unfold blocks_out_of_range in H.
  destruct (str_int_first_char num_residues) as (c & s & Hs & Hc).
  rewrite Hs in H. cbn in H. by injection H.
Qed.

Lemma getAtomList_Raise (residue : Residue) (e : exn) :
  _getAtomList residue = Raise e →
  e = KeyError "HA2" ∨ ∃ atom, e = ValueError (atom_not_found atom residue).
Proof.
  unfold _getAtomList.
  assert (∀ d names acc, collect_atoms residue d names acc = Raise e →
            ∃ atom, e = ValueError (atom_not_found atom residue)) as Hcollect.
  { intros d names. induction names as [|atom names IH]; intros acc; simpl; [done|].
    destruct (d !! atom); [apply IH|]. intros [= <-]. by exists atom. }
  case_bool_decide.
  - destruct (residue_atoms_dict residue !! "HA2"%string); cbn [mbind result_bind].
    + intros H'. right. by eapply Hcollect.
    + intros [= <-]. by left.
  - cbn [mbind result_bind]. intros H'. right. by eapply Hcollect.
Qed.

Lemma map_result_Raise {A B : Type} (f : A → result B) (l : list A) (e : exn) :
  map_result f l = Raise e → ∃ a, a ∈ l ∧ f a = Raise e.
Proof.
  induction l as [|a l IH]; simpl; [done|].
  destruct (f a) as [b|e'] eqn:Hfa; simpl.
  - destruct (map_result f l) as [bs|e']; simpl; [done|].
    intros [= <-]. destruct IH as (a' & Ha' & Hfa'); [done|].
    exists a'. split; [by right|done].
  - intros [= <-]. exists a. split; [left|done].
Qed.

Lemma py_index_Raise {A : Type} (l : list A) (i : Z) (e : exn) :
  py_index l i = Raise e → e = IndexError.
Proof.
  unfold py_index. destruct (_ <? 0); [by intros [= <-]|].
  destruct (l !! _); [done|by intros [= <-]].
Qed.

(** What can go wrong while the atoms of the groups are collected. *)
Lemma block_atoms_of_Raise (residues : list Residue) (residue_blocks : list (list Z))
    (e : exn) :
  block_atoms_of residues residue_blocks = Raise e →
  e = IndexError ∨ e = KeyError "HA2"
  ∨ ∃ atom residue, e = ValueError (atom_not_found atom residue).
Proof.
  unfold block_atoms_of.
  destruct (map_result _getAtomList residues) as [residue_atoms|e'] eqn:Hres; simpl.
  - intros H. apply map_result_Raise in H as (block & _ & H).
    destruct (map_result (py_index residue_atoms) block) as [atoms|e'] eqn:Hblock;
      simpl in H; [done|].
    injection H as <-. apply map_result_Raise in Hblock as (i & _ & Hi).
    left. by eapply py_index_Raise.
  - intros [= <-]. apply map_result_Raise in Hres as (residue & _ & H).
    apply getAtomList_Raise in H as [->|(atom & ->)]; [by right; left|].
    right; right. by exists atom, residue.
Qed.

(** C6: [RMSDContent.__init__] raises its [ValueError] about the number of
    blocks exactly when the number of residue groups is outside [1, 1024];
    with a number of groups in that range the check passes and the
    construction goes on, to the store [final_store] unless the atoms of some
    group cannot be collected. *)
Theorem block_count_check (residue_blocks : list (list Z)) (ideal_positions : Positions)
    (residues : list Residue) (numAtoms : Z) (thresholdRMSD stepFunction : string)
    (normalize : bool) :
  let n := len residue_blocks in
  (RMSDContent_init residue_blocks ideal_positions residues numAtoms thresholdRMSD
     stepFunction normalize
   = Raise (ValueError (blocks_out_of_range (len residues) n))
   ↔ ¬ (1 ≤ n ≤ 1024))
  ∧ (1 ≤ n ≤ 1024 →
     RMSDContent_init residue_blocks ideal_positions residues numAtoms thresholdRMSD
       stepFunction normalize
     = (block_atoms ← block_atoms_of residues residue_blocks ;
        Ok (mkRMSDContent
              (final_store n stepFunction thresholdRMSD ideal_positions block_atoms
                 numAtoms normalize) n))).
Proof.
  intros n. split; [|apply RMSDContent_init_store]. split.
  - intros Hraise Hn. rewrite RMSDContent_init_store in Hraise by done. fold n in Hraise.
    destruct (block_atoms_of residues residue_blocks) as [block_atoms|e] eqn:Hatoms;
      [discriminate|].
    injection Hraise as ->.
    apply block_atoms_of_Raise in Hatoms as [?|[?|(atom & residue & H)]];
      [discriminate..|].
    injection H as H. by apply blocks_out_of_range_not_atom in H.
  - intros Hn. unfold RMSDContent_init. fold n.
    destruct (negb _) eqn:Hcheck; [done|].
    apply negb_false_iff, andb_true_iff in Hcheck as [H1 H2].
    apply Z.leb_le in H1, H2. lia.
Qed.

(** ** Normalization *)

(** The count that [getNumResidueBlocks] returns is the number of groups the
    construction was given. *)
Lemma getNumResidueBlocks_count (residue_blocks : list (list Z)) (ideal_positions : Positions)
    (residues : list Residue) (numAtoms : Z) (thresholdRMSD stepFunction : string)
    (normalize : bool) (self : RMSDContent) :
  RMSDContent_init residue_blocks ideal_positions residues numAtoms thresholdRMSD
    stepFunction normalize = Ok self →
  getNumResidueBlocks self = len residue_blocks.
Proof. intros H. by apply RMSDContent_init_Ok_inv in H as (_ & ? & _). Qed.


(** With at most 32 groups, the normalized energy of [self] has no value: its
    text opens a parenthesis before the sum and closes it after the
    definitions. *)
Lemma normalized_small_no_value {V : Type} (add : V → V → V)
    (text_value : string → (string → option V) → option V)
    (over_threshold : V → string → V) (over_count : V → Z → V)
    (rmsd_value : Positions → list Z → Z → V)
    (residue_blocks : list (list Z)) (ideal_positions : Positions)
    (residues : list Residue) (numAtoms : Z) (thresholdRMSD stepFunction : string)
    (self : RMSDContent) (fuel : nat) :
  len residue_blocks ≤ 32 →
  RMSDContent_init residue_blocks ideal_positions residues numAtoms thresholdRMSD
    stepFunction true = Ok self →
  content_value add text_value over_threshold over_count rmsd_value fuel self = None.
Proof.
  intros Hsmall Hinit.
  apply RMSDContent_init_Ok in Hinit as (Hn & block_atoms & Hatoms & Hlen & ->).
  unfold content_value. cbn [forces]. by apply final_store_value_normalized_small.
Qed.

Lemma string_app_assoc (a b c : string) : (a +:+ b) +:+ c = a +:+ (b +:+ c).
Proof.
  induction a as [|x a IH]; [done|].
  change (String x ((a +:+ b) +:+ c) = String x (a +:+ (b +:+ c))). by rewrite IH.
Qed.

(** The text of a normalized expression that carries definitions: the opening
    parenthesis, the sum, and only then, after a [;], the rest. *)
Lemma render_normalized_definitions (main : expr) (d : definition) (defs : list definition)
    (count : Z) :
  ∃ rest,
    render (Normalized (WithDefs main (d :: defs)) count)
    = "(" +:+ render main +:+ ";" +:+ rest.
Proof.
  cbn [render]. rewrite fmap_cons. unfold join. cbn [String.concat].
  eexists. rewrite !string_app_assoc. reflexivity.
Qed.

(** C5, at a construction that breaks it: eight residues, antiparallel, give a
    single group; with [normalize] the energy text of the composite is
    [((1+x0^4)/(1+x0^4+x0^8);x0=rmsd0/0.08)/1], whose main part, up to the
    first [;], leaves a parenthesis open: the composite has no value,
    whatever the engine makes of the terms, where the aggregate divided by
    the number of groups was due.  The count that [getNumResidueBlocks]
    returns is right. *)
Theorem normalized_single_group_text :
  ∃ self top,
    SheetRMSDContent_init (ala <$> range0 8) 80 false None default_thresholdRMSD
      default_stepFunction true = Ok self
    ∧ getNumResidueBlocks self = 1
    ∧ forces self !! self_address = Some top
    ∧ render (energy top) = "((1+x0^4)/(1+x0^4+x0^8);x0=rmsd0/0.08)/1"%string
    ∧ primary_text (render (energy top)) = "((1+x0^4)/(1+x0^4+x0^8)"%string
    ∧ paren_depth (primary_text (render (energy top))) = 1
    ∧ (∀ (V : Type) (add : V → V → V)
         (text_value : string → (string → option V) → option V)
         (over_threshold : V → string → V) (over_count : V → Z → V)
         (rmsd_value : Positions → list Z → Z → V) (fuel : nat),
         content_value add text_value over_threshold over_count rmsd_value fuel self
         = None).
Proof.
  destruct (SheetRMSDContent_init (ala <$> range0 8) 80 false None default_thresholdRMSD
              default_stepFunction true) as [self|e] eqn:E;
    [|vm_compute in E; discriminate].
  assert (∀ (V : Type) (add : V → V → V)
            (text_value : string → (string → option V) → option V)
            (over_threshold : V → string → V) (over_count : V → Z → V)
            (rmsd_value : Positions → list Z → Z → V) (fuel : nat),
            content_value add text_value over_threshold over_count rmsd_value fuel self
            = None) as Hnone.
  { intros V add text_value over_threshold over_count rmsd_value fuel. unfold SheetRMSDContent_init in E. cbn [residue_groups mbind result_bind] in E.
    eapply normalized_small_no_value; [|exact E]. by vm_compute. }
  vm_compute in E. injection E as <-.
  eexists _, _. split; [reflexivity|]. repeat split; try reflexivity. exact Hnone.
Qed.

(** Without normalization a construction that returns is worth the aggregate
    of its groups. *)
Lemma content_value_aggregate {V : Type} (add : V → V → V)
    (text_value : string → (string → option V) → option V)
    (over_threshold : V → string → V) (over_count : V → Z → V)
    (rmsd_value : Positions → list Z → Z → V) (step : V → V)
    (residue_blocks : list (list Z)) (ideal_positions : Positions)
    (residues : list Residue) (numAtoms : Z) (thresholdRMSD stepFunction : string)
    (self : RMSDContent) :
  (∀ a b c, add a (add b c) = add (add a b) c) →
  reads_as text_value step stepFunction →
  RMSDContent_init residue_blocks ideal_positions residues numAtoms thresholdRMSD
    stepFunction false = Ok self →
  ∃ block_atoms v,
    block_atoms_of residues residue_blocks = Ok block_atoms
    ∧ aggregate add over_threshold rmsd_value step block_atoms ideal_positions numAtoms
        thresholdRMSD = Some v
    ∧ (∀ fuel,
         content_value add text_value over_threshold over_count rmsd_value (S (S fuel)) self
         = Some v).
Proof.
  intros Hassoc Hreads Hinit.
  apply RMSDContent_init_Ok in Hinit as (Hn & block_atoms & Hatoms & Hlen & ->).
  destruct (aggregate_is_Some add over_threshold rmsd_value (len residue_blocks)
              thresholdRMSD ideal_positions block_atoms numAtoms step)
    as [v Hv]; [lia|].
  exists block_atoms, v. split; [done|].
  split; [by rewrite (aggregate_terms _ _ _ (len residue_blocks))|].
  intros fuel. unfold content_value. cbn [forces].
  by rewrite (final_store_value _ _ _ _ _ Hassoc _ _ _ _ _ _ step).
Qed.

(** ** The example of the documentation *)




(** * Further properties *)

(** ** [_getAtomList] *)

Lemma collect_atoms_length (residue : Residue) (d : gmap string Z) (names : list string)
    (acc atoms : list Z) :
  collect_atoms residue d names acc = Ok atoms →
  length atoms = (length acc + length names)%nat.
Proof.
  revert acc. induction names as [|atom names IH]; intros acc; simpl.
  - intros [= <-]. lia.
  - destruct (d !! atom); [|discriminate]. intros H. apply IH in H.
    rewrite length_app in H. simpl in H. lia.
Qed.

(** A returned atom list has five entries. *)
Lemma getAtomList_length (residue : Residue) (atoms : list Z) :
  _getAtomList residue = Ok atoms → length atoms = 5%nat.
Proof.
  unfold _getAtomList.
  destruct (if bool_decide (res_name residue = "GLY"%string) then _ else _) as [d|e];
    cbn [mbind result_bind]; [|discriminate].
  intros H. by apply collect_atoms_length in H.
Qed.

(** X1: whatever the residue, the first of N, CA, CB, C, O that the dictionary
    consulted lacks is reported, with the residue's name and id, once the
    glycine lookup of HA2 is passed: for a residue that is not a glycine, and
    for a glycine that has an HA2 (for which CB is never lacking). *)
Theorem getAtomList_first_missing (residue : Residue) (before after : list string)
    (atom : string) :
  backbone_names = before ++ atom :: after →
  (res_name residue = "GLY"%string →
   is_Some (residue_atoms_dict residue !! "HA2"%string) ∧ atom ≠ "CB"%string) →
  (∀ b, b ∈ before →
        is_Some (residue_atoms_dict residue !! b)
        ∨ (b = "CB"%string ∧ res_name residue = "GLY"%string)) →
  residue_atoms_dict residue !! atom = None →
  _getAtomList residue
  = Raise (ValueError ("Atom " +:+ atom +:+ " not found in residue "
                       +:+ res_name residue +:+ res_id residue)).
Proof.
  intros Hsplit Hgly Hbefore Hatom. unfold _getAtomList. case_bool_decide as Hname.
  - destruct (Hgly Hname) as [[h Hh] Hcb]. rewrite Hh. cbn [mbind result_bind].
    eapply collect_atoms_missing; [exact Hsplit| |by rewrite lookup_insert_ne].
    intros b Hb. destruct (decide (b = "CB"%string)) as [->|Hne].
    + rewrite lookup_insert_eq. by eexists.
    + rewrite lookup_insert_ne by done.
      destruct (Hbefore b Hb) as [?|[? _]]; done.
  - cbn [mbind result_bind]. eapply collect_atoms_missing; [exact Hsplit| |done].
    intros b Hb. destruct (Hbefore b Hb) as [?|[_ ?]]; done.
Qed.

Lemma getAtomList_first_missing_witness :
  _getAtomList ser_no_CA = Raise (ValueError "Atom CA not found in residue SER12").
Proof.
  apply (getAtomList_first_missing ser_no_CA ["N"%string] ["CB"; "C"; "O"]%string "CA").
  - reflexivity.
  - intros H. vm_compute in H. discriminate.
  - intros b Hb. apply list_elem_of_singleton in Hb as ->. left. by eexists.
  - reflexivity.
Defined.

(** X2: when several atoms of a residue bear the same name, the dictionary
    keeps the index of the last one: an atom after which no atom of its name
    follows is the one its name is looked up to. *)
Theorem residue_atoms_dict_last (residue : Residue) (l1 l2 : list Atom) (a : Atom) :
  res_atoms residue = l1 ++ a :: l2 →
  (∀ a', a' ∈ l2 → atom_name a' ≠ atom_name a) →
  residue_atoms_dict residue !! atom_name a = Some (atom_index a).
Proof.
  intros Hatoms Hlast. unfold residue_atoms_dict. rewrite Hatoms, foldl_app. simpl.
  rewrite residue_atoms_fold_absent by done. apply lookup_insert_eq.
Qed.

Lemma residue_atoms_dict_last_witness :
  residue_atoms_dict ser_two_N !! "N"%string = Some 116
  ∧ _getAtomList ser_two_N = Ok [116; 112; 114; 118; 119].
Proof.
  split; [|reflexivity].
  apply (residue_atoms_dict_last ser_two_N
           [mkAtom "N" 110; mkAtom "CA" 112; mkAtom "CB" 114] [mkAtom "C" 118; mkAtom "O" 119]
           (mkAtom "N" 116)); [reflexivity|].
  intros a' Ha'.
  repeat (apply elem_of_cons in Ha' as [->|Ha']; [simpl; discriminate|]).
  by apply elem_of_nil in Ha'.
Defined.

(** X3: every index an atom list returns is the index of an atom of the
    residue, and the list has five of them; for a glycine the third is that of
    an atom named HA2, otherwise the five atoms are named N, CA, CB, C, O in
    this order. *)
Theorem getAtomList_indices (residue : Residue) (atoms : list Z) :
  _getAtomList residue = Ok atoms →
  ∃ n ca cb c o : Atom,
    atoms = atom_index <$> [n; ca; cb; c; o]
    ∧ Forall (fun a => a ∈ res_atoms residue) [n; ca; cb; c; o]
    ∧ atom_name <$> [n; ca; cb; c; o]
      = ["N"; "CA";
         if bool_decide (res_name residue = "GLY"%string) then "HA2" else "CB";
         "C"; "O"]%string.
Proof.
  unfold _getAtomList. intros H.
  assert (∀ d : gmap string Z,
            (∀ name i, d !! name = Some i →
               ∃ a, a ∈ res_atoms residue ∧ atom_index a = i
                    ∧ atom_name a = (if bool_decide (name = "CB"%string)
                                     then (if bool_decide (res_name residue = "GLY"%string)
                                           then "HA2" else "CB")
                                     else name)%string) →
            collect_atoms residue d backbone_names [] = Ok atoms →
            ∃ n ca cb c o : Atom,
              atoms = atom_index <$> [n; ca; cb; c; o]
              ∧ Forall (fun a => a ∈ res_atoms residue) [n; ca; cb; c; o]
              ∧ atom_name <$> [n; ca; cb; c; o]
                = ["N"; "CA";
                   if bool_decide (res_name residue = "GLY"%string) then "HA2" else "CB";
                   "C"; "O"]%string) as Hcollect.
  { intros d Hd. simpl.
    destruct (d !! "N"%string) as [i1|] eqn:H1; [|discriminate].
    destruct (d !! "CA"%string) as [i2|] eqn:H2; [|discriminate].
    destruct (d !! "CB"%string) as [i3|] eqn:H3; [|discriminate].
    destruct (d !! "C"%string) as [i4|] eqn:H4; [|discriminate].
    destruct (d !! "O"%string) as [i5|] eqn:H5; [|discriminate].
    intros [= <-].
    apply Hd in H1 as (a1 & ? & <- & E1), H2 as (a2 & ? & <- & E2),
      H3 as (a3 & ? & <- & E3), H4 as (a4 & ? & <- & E4), H5 as (a5 & ? & <- & E5).
    exists a1, a2, a3, a4, a5. split; [done|]. split.
    - by repeat (apply Forall_cons; split); try apply Forall_nil.
    - cbn [fmap list_fmap]. rewrite E1, E2, E3, E4, E5. done. }
  case_bool_decide as Hname.
  - destruct (residue_atoms_dict residue !! "HA2"%string) as [h|] eqn:Hh;
      cbn [mbind result_bind] in H; [|discriminate].
    eapply Hcollect; [|exact H]. clear H. intros name i Hi.
    destruct (decide (name = "CB"%string)) as [->|Hne].
    + rewrite lookup_insert_eq in Hi. injection Hi as <-.
      apply residue_atoms_dict_present in Hh as (a & ? & ? & ?). by exists a.
    + rewrite lookup_insert_ne in Hi by done.
      apply residue_atoms_dict_present in Hi as (a & ? & ? & ?). exists a.
      by rewrite bool_decide_eq_false_2.
  - cbn [mbind result_bind] in H. eapply Hcollect; [|exact H].
    clear H. intros name i Hi.
    apply residue_atoms_dict_present in Hi as (a & ? & ? & ?). exists a.
    split; [done|]. split; [done|]. by case_bool_decide; subst.
Qed.

Lemma getAtomList_indices_witness :
  ∃ n ca cb c o : Atom,
    [60; 62; 63; 65; 66] = atom_index <$> [n; ca; cb; c; o]
    ∧ Forall (fun a => a ∈ res_atoms gly) [n; ca; cb; c; o]
    ∧ atom_name <$> [n; ca; cb; c; o] = ["N"; "CA"; "HA2"; "C"; "O"]%string.
Proof.
  exact (getAtomList_indices gly [60; 62; 63; 65; 66] eq_refl).
Defined.

(** ** Failures of the constructors *)

Lemma map_result_stops (A B : Type) (f : A → result B) (good rest : list A) (bad : A)
    (e : exn) :
  (∀ a, a ∈ good → ∃ b, f a = Ok b) → f bad = Raise e →
  map_result f (good ++ bad :: rest) = Raise e.
Proof.
  intros Hgood Hbad. induction good as [|a good IH]; simpl.
  - by rewrite Hbad.
  - destruct (Hgood a) as [b Hb]; [left|]. rewrite Hb. cbn [mbind result_bind].
    rewrite IH; [done|]. intros a' Ha'. apply Hgood. by right.
Qed.

Lemma map_result_all_Ok (A B : Type) (f : A → result B) (l : list A) :
  (∀ a, a ∈ l → ∃ b, f a = Ok b) → ∃ bs, map_result f l = Ok bs.
Proof.
  induction l as [|a l IH]; intros Hall; simpl; [by eexists|].
  destruct (Hall a) as [b Hb]; [left|]. rewrite Hb.
  destruct IH as [bs Hbs]; [intros a' Ha'; apply Hall; by right|].
  rewrite Hbs. by eexists.
Qed.

Lemma map_result_Ok_each (A B : Type) (f : A → result B) (l : list A) (bs : list B) (a : A) :
  map_result f l = Ok bs → a ∈ l → ∃ b, f a = Ok b.
Proof.
  intros Hmap Ha. apply list_elem_of_lookup in Ha as [i Hi].
  destruct (map_result_lookup f l bs i a Hmap Hi) as (b & _ & Hb). by exists b.
Qed.

Lemma py_index_in_range (A : Type) (l : list A) (i : Z) :
  - len l ≤ i < len l → ∃ a, py_index l i = Ok a.
Proof.
  intros Hi. unfold py_index, len in *. destruct (i <? 0) eqn:Hneg.
  - apply Z.ltb_lt in Hneg. rewrite (proj2 (Z.ltb_ge _ 0)) by lia.
    destruct (lookup_lt_is_Some_2 l (Z.to_nat (i + Z.of_nat (length l)))) as [a Ha]; [lia|].
    rewrite Ha. by exists a.
  - apply Z.ltb_ge in Hneg. rewrite (proj2 (Z.ltb_ge _ 0)) by lia.
    destruct (lookup_lt_is_Some_2 l (Z.to_nat i)) as [a Ha]; [lia|].
    rewrite Ha. by exists a.
Qed.

Lemma py_index_out_of_range (A : Type) (l : list A) (i : Z) (e : exn) :
  py_index l i = Raise e → ¬ (- len l ≤ i < len l).
Proof.
  intros Hraise Hi. destruct (py_index_in_range A l i Hi) as [a Ha]. congruence.
Qed.

Lemma RMSDContent_init_out_of_range (residue_blocks : list (list Z))
    (ideal_positions : Positions) (residues : list Residue) (numAtoms : Z)
    (thresholdRMSD stepFunction : string) (normalize : bool) :
  ¬ (1 ≤ len residue_blocks ≤ 1024) →
  RMSDContent_init residue_blocks ideal_positions residues numAtoms thresholdRMSD
    stepFunction normalize
  = Raise (ValueError (blocks_out_of_range (len residues) (len residue_blocks))).
Proof.
  intros Hn. unfold RMSDContent_init.
  destruct (negb _) eqn:Hcheck; [done|].
  apply negb_false_iff, andb_true_iff in Hcheck as [H1 H2].
  apply Z.leb_le in H1, H2. lia.
Qed.

(** X4: the residues are looked at in order, and the first one whose atom list
    cannot be built decides the error of the construction; the residues after
    it are not looked at. *)
Theorem init_first_invalid_residue (residue_blocks : list (list Z))
    (ideal_positions : Positions) (good rest : list Residue) (bad : Residue) (numAtoms : Z)
    (thresholdRMSD stepFunction : string) (normalize : bool) (e : exn) :
  1 ≤ len residue_blocks ≤ 1024 →
  (∀ r, r ∈ good → ∃ atoms, _getAtomList r = Ok atoms) →
  _getAtomList bad = Raise e →
  RMSDContent_init residue_blocks ideal_positions (good ++ bad :: rest) numAtoms
    thresholdRMSD stepFunction normalize = Raise e.
Proof.
  intros Hn Hgood Hbad. rewrite RMSDContent_init_store by done.
  unfold block_atoms_of. by rewrite (map_result_stops _ _ _ good rest bad e).
Qed.

Lemma init_first_invalid_residue_witness :
  RMSDContent_init [[0; 1]] ANTIBETA_POSITIONS [ala 0; ser_no_CA; gly_no_HA2] 30
    default_thresholdRMSD default_stepFunction false
  = Raise (ValueError "Atom CA not found in residue SER12").
Proof.
  apply (init_first_invalid_residue [[0; 1]] ANTIBETA_POSITIONS [ala 0] [gly_no_HA2]
           ser_no_CA).
  - by vm_compute.
  - intros r Hr. apply list_elem_of_singleton in Hr as ->. by eexists.
  - reflexivity.
Defined.

(** X5: the errors of [RMSDContent.__init__]: the [ValueError] about the number
    of blocks, when that number is outside [1, 1024]; the [ValueError] naming
    an atom and one of the residues given; the [KeyError] for HA2, when some
    residue given is a glycine; an [IndexError], when some group holds an
    index outside [-len(residues), len(residues)); nothing else, and in
    particular the loop never finds [force] unbound. *)
Theorem init_errors (residue_blocks : list (list Z)) (ideal_positions : Positions)
    (residues : list Residue) (numAtoms : Z) (thresholdRMSD stepFunction : string)
    (normalize : bool) (e : exn) :
  RMSDContent_init residue_blocks ideal_positions residues numAtoms thresholdRMSD
    stepFunction normalize = Raise e →
  (e = ValueError (blocks_out_of_range (len residues) (len residue_blocks))
   ∧ ¬ (1 ≤ len residue_blocks ≤ 1024))
  ∨ (∃ atom residue,
       residue ∈ residues ∧ e = ValueError (atom_not_found atom residue))
  ∨ (e = KeyError "HA2"
     ∧ ∃ residue, residue ∈ residues ∧ res_name residue = "GLY"%string)
  ∨ (e = IndexError
     ∧ ∃ block i, block ∈ residue_blocks ∧ i ∈ block
                  ∧ ¬ (- len residues ≤ i < len residues)).
Proof.
  intros Hraise.
  destruct (decide (1 ≤ len residue_blocks ≤ 1024)) as [Hn|Hn].
  - right. rewrite RMSDContent_init_store in Hraise by done.
    destruct (block_atoms_of residues residue_blocks) as [block_atoms|e'] eqn:Hatoms;
      [discriminate|].
    injection Hraise as ->. unfold block_atoms_of in Hatoms.
    destruct (map_result _getAtomList residues) as [residue_atoms|e'] eqn:Hres;
      cbn [mbind result_bind] in Hatoms.
    + right; right. apply map_result_Raise in Hatoms as (block & Hblock & H).
      destruct (map_result (py_index residue_atoms) block) as [atoms|e'] eqn:Hidx;
        cbn [mbind result_bind] in H; [discriminate|].
      injection H as ->. apply map_result_Raise in Hidx as (i & Hi & Hidx).
      pose proof (py_index_Raise _ _ _ Hidx) as ->. split; [done|].
      exists block, i. split; [done|]. split; [done|].
      apply py_index_out_of_range in Hidx.
      apply map_result_length in Hres. unfold len in *. by rewrite <-Hres.
    + injection Hatoms as ->. apply map_result_Raise in Hres as (residue & Hin & H).
      pose proof H as H'. apply getAtomList_Raise in H' as [->|(atom & ->)].
      * right; left. split; [done|]. exists residue. split; [done|].
        unfold _getAtomList in H. case_bool_decide as Hname; [done|].
        cbn [mbind result_bind] in H.
        assert (∀ names acc, collect_atoms residue (residue_atoms_dict residue) names acc
                             ≠ Raise (KeyError "HA2")) as Hnever.
        { induction names as [|a names IH]; intros acc; simpl; [done|].
          destruct (_ !! a); [apply IH|done]. }
        by apply Hnever in H.
      * left. by exists atom, residue.
  - left. split; [|done]. rewrite RMSDContent_init_out_of_range in Hraise by done.
    by injection Hraise.
Qed.

Lemma init_errors_witness :
  (IndexError = ValueError (blocks_out_of_range 1 1) ∧ ¬ (1 ≤ len [[0; 1]] ≤ 1024))
  ∨ (∃ atom residue, residue ∈ [ala 0] ∧ IndexError = ValueError (atom_not_found atom residue))
  ∨ (IndexError = KeyError "HA2"
     ∧ ∃ residue, residue ∈ [ala 0] ∧ res_name residue = "GLY"%string)
  ∨ (IndexError = IndexError
     ∧ ∃ block i, block ∈ [[0; 1]] ∧ i ∈ block ∧ ¬ (- len [ala 0] ≤ i < len [ala 0])).
Proof.
  exact (init_errors [[0; 1]] ANTIBETA_POSITIONS [ala 0] 10 default_thresholdRMSD
           default_stepFunction false IndexError eq_refl).
Defined.

(** ** Which sequences [SheetRMSDContent] accepts *)

Lemma block_atoms_of_Ok (residues : list Residue) (residue_blocks : list (list Z)) :
  (∀ r, r ∈ residues → ∃ atoms, _getAtomList r = Ok atoms) →
  (∀ block i, block ∈ residue_blocks → i ∈ block → - len residues ≤ i < len residues) →
  ∃ block_atoms, block_atoms_of residues residue_blocks = Ok block_atoms.
Proof.
  intros Hres Hidx. unfold block_atoms_of.
  destruct (map_result_all_Ok _ _ _getAtomList residues Hres) as [residue_atoms Hatoms].
  rewrite Hatoms. cbn [mbind result_bind]. apply map_result_all_Ok.
  intros block Hblock.
  destruct (map_result_all_Ok _ _ (py_index residue_atoms) block) as [atoms Hblock_atoms].
  - intros i Hi. apply py_index_in_range.
    apply map_result_length in Hatoms. unfold len. rewrite Hatoms. by eapply Hidx.
  - rewrite Hblock_atoms. by eexists.
Qed.

Lemma block_atoms_of_residues_Ok (residues : list Residue) (residue_blocks block_atoms : list (list Z))
    (r : Residue) :
  block_atoms_of residues residue_blocks = Ok block_atoms → r ∈ residues →
  ∃ atoms, _getAtomList r = Ok atoms.
Proof.
  unfold block_atoms_of. intros H Hr.
  destruct (map_result _getAtomList residues) as [residue_atoms|e] eqn:Hres; [|discriminate].
  by eapply map_result_Ok_each.
Qed.

Lemma unblocked_count_in_range (n : Z) (parallel : bool) :
  1 ≤ len (unblocked_groups n parallel) ≤ 1024
  ↔ min_distance parallel + 3 ≤ n ≤ min_distance parallel + 46.
Proof.
  destruct (decide (n ≤ min_distance parallel + 2)) as [Hshort|Hlong].
  - rewrite unblocked_groups_short by done. unfold len. simpl. lia.
  - rewrite unblocked_groups_length by lia.
    set (m := n - 2 - min_distance parallel).
    replace (n - 1 - min_distance parallel) with (m + 1) by lia.
    assert (1 ≤ m) by lia.
    split.
    + intros [_ Hle]. assert (m ≤ 44); [|lia].
      Z.div_mod_to_equations. nia.
    + intros Hm. assert (m ≤ 44) by lia. Z.div_mod_to_equations. nia.
Qed.

(** The six residues of a group without [blockSizes]: two triplets, the second
    after the first, within the sequence. *)
Lemma unblocked_groups_within (n : Z) (parallel : bool) (g : list Z) :
  g ∈ unblocked_groups n parallel →
  ∃ i j, g = group_of i j ∧ 0 ≤ i ∧ i + 2 < j ∧ j + 2 < n.
Proof.
  intros Hg. apply unblocked_groups_elem in Hg as (i & j & Hi & Hj & ->).
  exists i, j. split; [done|]. unfold min_distance in *. destruct parallel; lia.
Qed.

(** X6: a construction without [blockSizes] returns exactly when the sequence
    has between [d_min + 3] and [d_min + 46] residues (8 to 51 for
    antiparallel, 9 to 52 for parallel sheets) and an atom list can be built
    for every residue. *)
Theorem unblocked_construction_returns_iff (residues : list Residue) (numAtoms : Z)
    (parallel : bool) (thresholdRMSD stepFunction : string) (normalize : bool) :
  (∃ self,
     SheetRMSDContent_init residues numAtoms parallel None thresholdRMSD stepFunction
       normalize = Ok self)
  ↔ (min_distance parallel + 3 ≤ len residues ≤ min_distance parallel + 46
     ∧ ∀ r, r ∈ residues → ∃ atoms, _getAtomList r = Ok atoms).
Proof.
  unfold SheetRMSDContent_init. cbn [residue_groups mbind result_bind]. split.
  - intros [self Hinit].
    apply RMSDContent_init_Ok_inv in Hinit as (Hcount & _ & block_atoms & Hatoms).
    split; [by apply unblocked_count_in_range|].
    intros r Hr. by eapply block_atoms_of_residues_Ok.
  - intros [Hn Hres]. apply unblocked_count_in_range in Hn.
    rewrite RMSDContent_init_store by done.
    destruct (block_atoms_of_Ok residues (unblocked_groups (len residues) parallel))
      as [block_atoms Hatoms]; [done| |].
    + intros block i Hblock Hi.
      apply unblocked_groups_within in Hblock as (i0 & j0 & -> & ? & ? & ?).
      unfold group_of in Hi.
      repeat (apply elem_of_cons in Hi as [->|Hi]; [lia|]). by apply elem_of_nil in Hi.
    + rewrite Hatoms. by eexists.
Qed.

(** X7: the residues of every group enumerated without [blockSizes] are six
    different residues of the sequence: a triplet [i, i+1, i+2] and, after it,
    a triplet [j, j+1, j+2], with [0 <= i], [i + 2 < j] and [j + 2 < n]. *)
Theorem unblocked_groups_triplets (n : Z) (parallel : bool) :
  Forall (fun g => ∃ i j, g = [i; i + 1; i + 2; j; j + 1; j + 2]
                          ∧ 0 ≤ i ∧ i + 2 < j ∧ j + 2 < n)
    (unblocked_groups n parallel).
Proof.
  apply Forall_forall. intros g Hg. by apply (unblocked_groups_within n parallel).
Qed.

(** X8: a sequence too short or too long is refused by the check on the number
    of groups, before any residue is looked at: whatever the residues, the
    error is the [ValueError] that tells the number of residues and of groups,
    which is 0 up to [d_min + 2] residues. *)
Theorem unblocked_length_refused (residues : list Residue) (numAtoms : Z)
    (parallel : bool) (thresholdRMSD stepFunction : string) (normalize : bool) :
  ¬ (min_distance parallel + 3 ≤ len residues ≤ min_distance parallel + 46) →
  SheetRMSDContent_init residues numAtoms parallel None thresholdRMSD stepFunction
    normalize
  = Raise (ValueError
             (str_int (len residues) +:+ " residues yield "
              +:+ str_int (len (unblocked_groups (len residues) parallel))
              +:+ " blocks, which is not between 1 and 1024"))
  ∧ (len residues ≤ min_distance parallel + 2 →
     len (unblocked_groups (len residues) parallel) = 0).
Proof.
  intros Hn. split.
  - unfold SheetRMSDContent_init. cbn [residue_groups mbind result_bind].
    rewrite RMSDContent_init_out_of_range; [done|].
    by rewrite (unblocked_count_in_range (len residues) parallel).
  - intros Hshort. by rewrite unblocked_groups_short.
Qed.

Lemma unblocked_length_refused_witness :
  SheetRMSDContent_init [gly_no_HA2; ser_no_CA] 20 false None default_thresholdRMSD
    default_stepFunction false
  = Raise (ValueError "2 residues yield 0 blocks, which is not between 1 and 1024").
Proof.
  refine (proj1 (unblocked_length_refused [gly_no_HA2; ser_no_CA] 20 false
                   default_thresholdRMSD default_stepFunction false _)).
  vm_compute. intros [H _]. by apply H.
Defined.

(** *** Blocks *)

Lemma py_sum_app (l1 l2 : list Z) : py_sum (l1 ++ l2) = py_sum l1 + py_sum l2.
Proof. unfold py_sum at 1. rewrite foldl_app. apply foldl_add_shift. Qed.

Lemma block_start_step (sizes : list Z) (k : nat) :
  block_start sizes (S k) = block_start sizes k + default 0 (sizes !! k).
Proof.
  unfold block_start. destruct (sizes !! k) as [x|] eqn:Hk; simpl.
  - rewrite (take_S_r _ _ x) by done. rewrite py_sum_app. unfold py_sum at 2. simpl. lia.
  - apply lookup_ge_None in Hk. rewrite !take_ge by lia. lia.
Qed.

Lemma block_start_mono (sizes : list Z) (k k' : nat) :
  Forall (fun s => 0 ≤ s) sizes → (k ≤ k')%nat →
  block_start sizes k ≤ block_start sizes k'.
Proof.
  intros Hsizes Hk. induction Hk as [|k' _ IH]; [done|].
  rewrite block_start_step. destruct (sizes !! k') as [x|] eqn:Hx; simpl; [|lia].
  assert (0 ≤ x); [|lia].
  by eapply (proj1 (Forall_forall _ _) Hsizes), list_elem_of_lookup_2.
Qed.

Lemma block_start_end (sizes : list Z) (k : nat) :
  (length sizes ≤ k)%nat → block_start sizes k = py_sum sizes.
Proof. intros Hk. unfold block_start. by rewrite take_ge. Qed.

Lemma blocked_groups_NoDup (blockSizes : list Z) (groups : list (list Z)) :
  Forall (fun s => 0 ≤ s) blockSizes →
  blocked_groups blockSizes = Ok groups → NoDup groups.
Proof.
  intros Hsizes Hgroups.
  rewrite blocked_groups_Ok in Hgroups. injection Hgroups as <-.
  apply NoDup_bind; [| |apply range_NoDup].
  - intros k1 k2 g Hk1 Hk2 H1 H2. apply range_elem in Hk1, Hk2.
    apply block_pair_groups_elem in H1 as (i1 & j1 & Hi1 & _ & ->).
    apply block_pair_groups_elem in H2 as (i2 & j2 & Hi2 & _ & H).
    apply group_of_inj in H as [<- _].
    destruct (Z.lt_trichotomy k1 k2) as [Hlt|[Heq|Hlt]]; [|done|].
    + pose proof (block_start_mono blockSizes (Z.to_nat (k1 + 1)) (Z.to_nat k2) Hsizes
                    ltac:(lia)). lia.
    + pose proof (block_start_mono blockSizes (Z.to_nat (k2 + 1)) (Z.to_nat k1) Hsizes
                    ltac:(lia)). lia.
  - intros k _. unfold block_pair_groups.
    apply NoDup_bind; [| intros; apply group_row_NoDup | apply range_NoDup].
    intros i1 i2 g _ _ H1 H2.
    apply group_row_elem in H1 as (j1 & _ & ->).
    apply group_row_elem in H2 as (j2 & _ & H). by apply group_of_inj in H as [-> _].
Qed.

Lemma blocked_groups_within (blockSizes : list Z) (groups : list (list Z)) (g : list Z) :
  Forall (fun s => 0 ≤ s) blockSizes →
  blocked_groups blockSizes = Ok groups → g ∈ groups →
  ∃ i j, g = group_of i j ∧ 0 ≤ i ∧ i + 2 < j ∧ j + 2 < py_sum blockSizes.
Proof.
  intros Hsizes Hgroups Hg.
  apply (blocked_groups_elem _ _ _ Hgroups) in Hg as (k & i & j & Hk & Hi & Hj & ->).
  exists i, j. split; [done|].
  pose proof (block_start_mono blockSizes 0 k Hsizes ltac:(lia)) as H0.
  rewrite block_start_0 in H0.
  pose proof (block_start_mono blockSizes (S (S k)) (length blockSizes) Hsizes
                ltac:(lia)) as Hend.
  rewrite (block_start_end blockSizes (length blockSizes)) in Hend by done. lia.
Qed.

(** X9: with block sizes that are not negative, every group enumerated is made
    of a triplet of one block and a triplet of the next, six different
    residues within the sequence, and no group is enumerated twice. *)
Theorem blocked_groups_triplets (blockSizes : list Z) (groups : list (list Z)) :
  Forall (fun s => 0 ≤ s) blockSizes →
  blocked_groups blockSizes = Ok groups →
  NoDup groups
  ∧ Forall (fun g => ∃ i j, g = [i; i + 1; i + 2; j; j + 1; j + 2]
                            ∧ 0 ≤ i ∧ i + 2 < j ∧ j + 2 < py_sum blockSizes)
      groups.
Proof.
  intros Hsizes Hgroups. split; [by eapply blocked_groups_NoDup|].
  apply Forall_forall. intros g Hg. by eapply blocked_groups_within.
Qed.

Lemma blocked_groups_triplets_witness :
  ∃ groups,
    blocked_groups [11; 11; 9] = Ok groups
    ∧ len groups = 144
    ∧ NoDup groups
    ∧ Forall (fun g => ∃ i j, g = [i; i + 1; i + 2; j; j + 1; j + 2]
                              ∧ 0 ≤ i ∧ i + 2 < j ∧ j + 2 < py_sum [11; 11; 9])
        groups.
Proof.
  destruct (blocked_groups [11; 11; 9]) as [groups|e] eqn:E; [|vm_compute in E; discriminate].
  exists groups. split; [done|]. split.
  - pose proof E as E'. vm_compute in E'. injection E' as <-. reflexivity.
  - apply (blocked_groups_triplets [11; 11; 9] groups); [|done].
    repeat (apply Forall_cons; split; [lia|]). by apply Forall_nil.
Defined.

(** X10: block sizes that name at most one block yield no group, so that, when
    they add up to the number of residues, the construction is refused for
    having 0 groups: a single block is not the same as no [blockSizes]. *)
Theorem single_block_refused (residues : list Residue) (numAtoms : Z) (parallel : bool)
    (blockSizes : list Z) (thresholdRMSD stepFunction : string) (normalize : bool) :
  (length blockSizes ≤ 1)%nat →
  py_sum blockSizes = len residues →
  SheetRMSDContent_init residues numAtoms parallel (Some blockSizes) thresholdRMSD
    stepFunction normalize
  = Raise (ValueError
             (str_int (len residues)
              +:+ " residues yield 0 blocks, which is not between 1 and 1024")).
Proof.
  intros Hlen Hsum. unfold SheetRMSDContent_init, residue_groups.
  rewrite bool_decide_eq_true_2 by done. rewrite blocked_groups_Ok.
  unfold range0. rewrite (range_empty 0 (len blockSizes - 1)) by (unfold len; lia).
  cbn [mbind result_bind list_bind].
  by rewrite RMSDContent_init_out_of_range by (unfold len; simpl; lia).
Qed.

Lemma single_block_refused_witness :
  SheetRMSDContent_init (ala <$> range0 12) 120 false (Some [12]) default_thresholdRMSD
    default_stepFunction false
  = Raise (ValueError "12 residues yield 0 blocks, which is not between 1 and 1024").
Proof.
  etrans; [apply (single_block_refused (ala <$> range0 12) 120 false [12])|].
  - simpl. lia.
  - by vm_compute.
  - by vm_compute.
Defined.

(** X17: with block sizes that are not negative, a construction returns
    exactly when the sizes add up to the number of residues, the number of
    groups, the sum of [max(n_k - 2, 0) * max(n_(k+1) - 2, 0)], is between 1
    and 1024, and an atom list can be built for every residue. *)
Theorem blocked_construction_returns_iff (residues : list Residue) (numAtoms : Z)
    (parallel : bool) (blockSizes : list Z) (thresholdRMSD stepFunction : string)
    (normalize : bool) :
  Forall (fun s => 0 ≤ s) blockSizes →
  (∃ self,
     SheetRMSDContent_init residues numAtoms parallel (Some blockSizes) thresholdRMSD
       stepFunction normalize = Ok self)
  ↔ (py_sum blockSizes = len residues
     ∧ 1 ≤ block_pairs_count blockSizes ≤ 1024
     ∧ ∀ r, r ∈ residues → ∃ atoms, _getAtomList r = Ok atoms).
Proof.
  intros Hsizes. unfold SheetRMSDContent_init, residue_groups.
  destruct (blocked_groups blockSizes) as [groups|e] eqn:Hgroups;
    [|by rewrite blocked_groups_Ok in Hgroups].
  pose proof (blocked_groups_length _ _ Hgroups) as Hcount. split.
  - intros [self Hinit]. case_bool_decide as Hsum; [|discriminate].
    cbn [mbind result_bind] in Hinit.
    apply RMSDContent_init_Ok_inv in Hinit as (Hn & _ & block_atoms & Hatoms).
    split; [done|]. split; [by rewrite <-Hcount|].
    intros r Hr. by eapply block_atoms_of_residues_Ok.
  - intros (Hsum & Hn & Hres). rewrite bool_decide_eq_true_2 by done.
    cbn [mbind result_bind]. rewrite RMSDContent_init_store by (by rewrite Hcount).
    destruct (block_atoms_of_Ok residues groups) as [block_atoms Hatoms]; [done| |].
    + intros block i Hblock Hi.
      apply (blocked_groups_within _ _ _ Hsizes Hgroups) in Hblock
        as (i0 & j0 & -> & ? & ? & ?).
      unfold group_of in Hi. rewrite <-Hsum.
      repeat (apply elem_of_cons in Hi as [->|Hi]; [lia|]). by apply elem_of_nil in Hi.
    + rewrite Hatoms. by eexists.
Qed.

Lemma blocked_construction_returns_iff_witness :
  ∃ self,
    SheetRMSDContent_init (ala <$> range0 12) 120 false (Some [6; 6]) default_thresholdRMSD
      default_stepFunction false = Ok self.
Proof.
  apply (blocked_construction_returns_iff (ala <$> range0 12) 120 false [6; 6]).
  - repeat (apply Forall_cons; split; [lia|]). by apply Forall_nil.
  - split; [by vm_compute|]. split; [by vm_compute|].
    intros r Hr. apply list_elem_of_fmap in Hr as (k & -> & _).
    eexists. reflexivity.
Defined.

(** ** The store of a construction, read back *)

Lemma rmsd_entries_groups (ideal_positions : Positions) (block_atoms : list (list Z))
    (numAtoms : Z) (indices : list Z) :
  ((rmsd_entry ideal_positions block_atoms numAtoms <$> indices) ≫= fun entry =>
     match entry.2 with
     | RMSD _ group _ => [group]
     | ForceAt _ => []
     end)
  = (fun i => default [] (block_atoms !! Z.to_nat i)) <$> indices.
Proof.
  induction indices as [|i indices IH]; [done|].
  rewrite !fmap_cons, bind_cons, IH. done.
Qed.

Lemma chunk_entries_groups (indices : list Z) :
  ((chunk_entry <$> indices) ≫= fun entry =>
     match entry.2 with
     | RMSD _ group _ => [group]
     | ForceAt _ => []
     end)
  = @nil (list Z).
Proof.
  induction indices as [|i indices IH]; [done|].
  rewrite !fmap_cons, bind_cons, IH. done.
Qed.

(** Consecutive chunks of 32, the last one shorter, make up the whole range. *)
Lemma chunks_cover {A : Type} (f : Z → A) (n : Z) (c : nat) :
  32 * Z.of_nat c ≤ n + 31 →
  (range0 (Z.of_nat c) ≫= fun c => f <$> range (32 * c) (Z.min (32 * c + 32) n))
  = f <$> range0 (Z.min (32 * Z.of_nat c) n).
Proof.
  induction c as [|c IH]; intros Hc.
  - unfold range0. by rewrite (range_empty 0 (Z.min _ _)) by lia.
  - replace (Z.of_nat (S c)) with (Z.of_nat c + 1) by lia.
    rewrite range0_snoc, bind_app, IH, bind_singleton, <-fmap_app by lia. f_equal.
    unfold range0. replace (32 * (Z.of_nat c + 1)) with (32 * Z.of_nat c + 32) by lia.
    rewrite (Z.min_l (32 * Z.of_nat c)) by lia.
    symmetry. apply range_split; lia.
Qed.

Lemma final_store_groups (n : Z) (stepFunction thresholdRMSD : string)
    (ideal_positions : Positions) (block_atoms : list (list Z)) (numAtoms : Z)
    (normalize : bool) :
  1 ≤ n → len block_atoms = n →
  rmsd_groups (final_store n stepFunction thresholdRMSD ideal_positions block_atoms
                 numAtoms normalize)
  = block_atoms.
Proof.
  intros Hn Hlen. unfold rmsd_groups, final_store.
  trans ((fun i => default [] (block_atoms !! Z.to_nat i)) <$> range0 n);
    [|rewrite <-Hlen;
      etrans; [exact (fmap_lookup_default [] id block_atoms)|apply list_fmap_id]].
  destruct (n <=? 32) eqn:Hsmall.
  - unfold single_after. rewrite bind_singleton. cbn [variables].
    apply rmsd_entries_groups.
  - apply Z.leb_gt in Hsmall. unfold chunked_after. rewrite bind_cons. cbn [variables].
    rewrite chunk_entries_groups, app_nil_l, list_fmap_bind.
    assert (0 ≤ num_chunks n ∧ 32 * num_chunks n ≤ n + 31 ∧ n ≤ 32 * num_chunks n)
      as (Hc0 & Hc1 & Hc2) by (unfold num_chunks; zdiv).
    pose proof (chunks_cover (fun i => default [] (block_atoms !! Z.to_nat i)) n
                  (Z.to_nat (num_chunks n))) as Hcover.
    rewrite Z2Nat.id in Hcover by done. rewrite Z.min_r in Hcover by done.
    rewrite <-Hcover by done. apply list_bind_ext; [|done].
    intros c. unfold chunk_after, compose. cbn [variables]. apply rmsd_entries_groups.
Qed.

(** X11: chunking neither loses nor repeats a group: the [RMSD] forces of the
    store a construction leaves, read by address and order of registration,
    hold exactly the atom lists of the groups, in the order of the groups;
    their number is what [getNumResidueBlocks] returns. *)
Theorem store_holds_each_group_once (residue_blocks : list (list Z))
    (ideal_positions : Positions) (residues : list Residue) (numAtoms : Z)
    (thresholdRMSD stepFunction : string) (normalize : bool) (self : RMSDContent) :
  RMSDContent_init residue_blocks ideal_positions residues numAtoms thresholdRMSD
    stepFunction normalize = Ok self →
  block_atoms_of residues residue_blocks = Ok (rmsd_groups (forces self))
  ∧ len (rmsd_groups (forces self)) = getNumResidueBlocks self.
Proof.
  intros Hinit.
  apply RMSDContent_init_Ok in Hinit as (Hn & block_atoms & Hatoms & Hlen & ->).
  cbn [forces]. rewrite final_store_groups by (lia || done). by split.
Qed.

Lemma store_holds_each_group_once_witness :
  ∃ self,
    RMSDContent_init (unblocked_groups 16 false) ANTIBETA_POSITIONS (ala <$> range0 16) 160
      default_thresholdRMSD default_stepFunction true = Ok self
    ∧ block_atoms_of (ala <$> range0 16) (unblocked_groups 16 false)
      = Ok (rmsd_groups (forces self))
    ∧ len (rmsd_groups (forces self)) = getNumResidueBlocks self.
Proof.
  destruct (RMSDContent_init (unblocked_groups 16 false) ANTIBETA_POSITIONS
              (ala <$> range0 16) 160 default_thresholdRMSD default_stepFunction true)
    as [self|e] eqn:E; [|vm_compute in E; discriminate].
  exists self. split; [done|].
  exact (store_holds_each_group_once _ _ _ _ _ _ _ self E).
Defined.

(** *** Thirty atoms a group *)

Lemma map_result_Forall2 {A B : Type} (f : A → result B) (l : list A) (bs : list B) :
  map_result f l = Ok bs → Forall2 (fun a b => f a = Ok b) l bs.
Proof.
  revert bs. induction l as [|a l IH]; intros bs; simpl.
  - intros [= <-]. constructor.
  - destruct (f a) as [b|e] eqn:Hfa; cbn [mbind result_bind]; [|discriminate].
    destruct (map_result f l) as [bs'|e]; cbn [mbind result_bind]; [|discriminate].
    intros [= <-]. constructor; [done|]. by apply IH.
Qed.

Lemma py_index_elem {A : Type} (l : list A) (i : Z) (a : A) : py_index l i = Ok a → a ∈ l.
Proof.
  unfold py_index. destruct (_ <? 0); [discriminate|].
  destruct (l !! _) eqn:Hl; [|discriminate]. intros [= <-].
  by eapply list_elem_of_lookup_2.
Qed.

Lemma concat_length_uniform {A : Type} (k : nat) (ls : list (list A)) :
  Forall (fun l => length l = k) ls → length (concat ls) = (k * length ls)%nat.
Proof.
  induction 1 as [|l ls Hl _ IH]; simpl; [lia|].
  rewrite length_app, IH, Hl. lia.
Qed.

(** The atom list of a group has five atoms for each of its residues. *)
Lemma block_atoms_of_lengths (residues : list Residue) (residue_blocks block_atoms : list (list Z)) :
  block_atoms_of residues residue_blocks = Ok block_atoms →
  Forall2 (fun block atoms => length atoms = (5 * length block)%nat) residue_blocks
    block_atoms.
Proof.
  unfold block_atoms_of.
  destruct (map_result _getAtomList residues) as [residue_atoms|e] eqn:Hres;
    cbn [mbind result_bind]; [|discriminate].
  assert (Forall (fun atoms => length atoms = 5%nat) residue_atoms) as Hfive.
  { apply map_result_Forall2 in Hres. apply Forall_forall. intros atoms Hatoms.
    apply list_elem_of_lookup in Hatoms as [i Hi].
    destruct (Forall2_lookup_r _ _ _ _ _ Hres Hi) as (r & _ & Hr).
    by eapply getAtomList_length. }
  intros H. apply map_result_Forall2 in H.
  eapply Forall2_impl; [exact H|]. intros block atoms Hblock. cbv beta in Hblock.
  destruct (map_result (py_index residue_atoms) block) as [per_residue|e] eqn:Hidx;
    cbn [mbind result_bind] in Hblock; [|discriminate].
  injection Hblock as <-. unfold sum_lists.
  rewrite (concat_length_uniform 5).
  - by rewrite (map_result_length _ _ _ Hidx).
  - apply map_result_Forall2 in Hidx. apply Forall_forall. intros atoms Hatoms.
    apply list_elem_of_lookup in Hatoms as [i Hi].
    destruct (Forall2_lookup_r _ _ _ _ _ Hidx Hi) as (k & _ & Hk).
    apply py_index_elem in Hk. by eapply (proj1 (Forall_forall _ _) Hfive).
Qed.

Lemma residue_groups_six (n : Z) (parallel : bool) (blockSizes : option (list Z))
    (groups : list (list Z)) :
  residue_groups n parallel blockSizes = Ok groups →
  Forall (fun g => length g = 6%nat) groups.
Proof.
  unfold residue_groups. destruct blockSizes as [sizes|].
  - case_bool_decide; [|discriminate]. intros Hb. apply Forall_forall. intros g Hg.
    by apply (blocked_groups_elem _ _ _ Hb) in Hg as (k & i & j & _ & _ & _ & ->).
  - intros [= <-]. apply Forall_forall. intros g Hg.
    by apply unblocked_groups_elem in Hg as (i & j & _ & _ & ->).
Qed.

(** X12: every [RMSD] force that a [SheetRMSDContent] registers, with or
    without [blockSizes], acts on exactly 30 atoms: five for each of the six
    residues of its group. *)
Theorem sheet_groups_have_thirty_atoms (residues : list Residue) (numAtoms : Z)
    (parallel : bool) (blockSizes : option (list Z)) (thresholdRMSD stepFunction : string)
    (normalize : bool) (self : RMSDContent) :
  SheetRMSDContent_init residues numAtoms parallel blockSizes thresholdRMSD stepFunction
    normalize = Ok self →
  Forall (fun group => length group = 30%nat) (rmsd_groups (forces self)).
Proof.
  unfold SheetRMSDContent_init.
  destruct (residue_groups (len residues) parallel blockSizes) as [groups|e] eqn:Hgroups;
    cbn [mbind result_bind]; [|discriminate].
  intros Hinit. apply RMSDContent_init_Ok in Hinit as (Hn & block_atoms & Hatoms & Hlen & ->).
  cbn [forces]. rewrite final_store_groups by (lia || done).
  apply block_atoms_of_lengths in Hatoms. apply residue_groups_six in Hgroups.
  apply Forall_forall. intros atoms Hin.
  apply list_elem_of_lookup in Hin as [i Hi].
  destruct (Forall2_lookup_r _ _ _ _ _ Hatoms Hi) as (g & Hg & ->).
  apply list_elem_of_lookup_2 in Hg.
  by rewrite (proj1 (Forall_forall _ _) Hgroups g Hg).
Qed.

Lemma sheet_groups_have_thirty_atoms_witness :
  ∃ self,
    SheetRMSDContent_init (ala <$> range0 12) 120 true (Some [6; 6]) default_thresholdRMSD
      default_stepFunction false = Ok self
    ∧ Forall (fun group => length group = 30%nat) (rmsd_groups (forces self)).
Proof.
  destruct (SheetRMSDContent_init (ala <$> range0 12) 120 true (Some [6; 6])
              default_thresholdRMSD default_stepFunction false)
    as [self|e] eqn:E; [|vm_compute in E; discriminate].
  exists self. split; [done|].
  exact (sheet_groups_have_thirty_atoms _ _ _ _ _ _ _ self E).
Defined.

(** *** Terms and names of each force *)

Lemma final_store_terms (n : Z) (stepFunction thresholdRMSD : string)
    (ideal_positions : Positions) (block_atoms : list (list Z)) (numAtoms : Z)
    (normalize : bool) :
  1 ≤ n →
  Forall (fun f => summed_children (energy f) = length (variables f)
                   ∧ (1 ≤ length (variables f))%nat)
    (final_store n stepFunction thresholdRMSD ideal_positions block_atoms numAtoms normalize).
Proof.
  intros Hn. unfold final_store, single_after, chunked_after, self_energy.
  destruct (n <=? 32) eqn:Hsmall.
  - apply Z.leb_le in Hsmall. apply Forall_singleton. cbn [energy variables].
    rewrite summed_children_wrap. unfold expression. cbn [summed_children].
    unfold range0. rewrite !length_fmap, !range_length. lia.
  - apply Z.leb_gt in Hsmall. apply Forall_cons. split.
    + cbn [energy variables]. rewrite summed_children_wrap. cbn [summed_children].
      unfold range0. rewrite !length_fmap, !range_length. split; [done|].
      unfold num_chunks. zdiv.
    + apply Forall_fmap, Forall_forall. intros c Hc. apply range_elem in Hc.
      unfold chunk_after, expression, compose. cbn [energy variables summed_children].
      rewrite !length_fmap, range_length. split; [done|].
      unfold num_chunks in Hc. zdiv.
Qed.

(** X13: in the store a construction leaves, every force sums exactly as many
    terms as it has collective variables registered, and at least one: no
    chunk is left empty and no term is left without its variable. *)
Theorem forces_terms_match_variables (residue_blocks : list (list Z))
    (ideal_positions : Positions) (residues : list Residue) (numAtoms : Z)
    (thresholdRMSD stepFunction : string) (normalize : bool) (self : RMSDContent) :
  RMSDContent_init residue_blocks ideal_positions residues numAtoms thresholdRMSD
    stepFunction normalize = Ok self →
  Forall (fun f => summed_children (energy f) = length (variables f)
                   ∧ (1 ≤ length (variables f))%nat)
    (forces self).
Proof.
  intros Hinit.
  apply RMSDContent_init_Ok in Hinit as (Hn & block_atoms & Hatoms & Hlen & ->).
  cbn [forces]. apply final_store_terms. lia.
Qed.

Lemma forces_terms_match_variables_witness :
  ∃ self,
    RMSDContent_init (unblocked_groups 16 false) ANTIBETA_POSITIONS (ala <$> range0 16) 160
      default_thresholdRMSD default_stepFunction true = Ok self
    ∧ Forall (fun f => summed_children (energy f) = length (variables f)
                       ∧ (1 ≤ length (variables f))%nat)
        (forces self).
Proof.
  destruct (RMSDContent_init (unblocked_groups 16 false) ANTIBETA_POSITIONS
              (ala <$> range0 16) 160 default_thresholdRMSD default_stepFunction true)
    as [self|e] eqn:E; [|vm_compute in E; discriminate].
  exists self. split; [done|].
  exact (forces_terms_match_variables _ _ _ _ _ _ _ self E).
Defined.

Lemma var_x_not_rmsd (i j : Z) : var_x i ≠ var_rmsd j.
Proof. unfold var_x, var_rmsd. discriminate. Qed.

Lemma NoDup_names (key : Z → string) (l : list Z) :
  (∀ a b, key a = key b → a = b) → NoDup l → NoDup (key <$> l).
Proof.
  intros Hinj Hl. induction Hl as [|i l Hi Hl IH]; [constructor|].
  rewrite fmap_cons. constructor; [|done].
  intros Hin. apply list_elem_of_fmap in Hin as (j & Hkey & Hj).
  apply Hinj in Hkey as ->. done.
Qed.

Lemma terms_force_names (thresholdRMSD : string) (ideal_positions : Positions)
    (block_atoms : list (list Z)) (numAtoms : Z) (indices : list Z) :
  NoDup indices →
  NoDup ((def_name <$> ((fun i => mkDef (var_x i) (var_rmsd i) thresholdRMSD) <$> indices))
         ++ (fst <$> (rmsd_entry ideal_positions block_atoms numAtoms <$> indices))).
Proof.
  intros Hidx. rewrite <-!list_fmap_compose. apply NoDup_app. split; [|split].
  - by apply (NoDup_names var_x); [apply var_x_inj|].
  - intros name H1 H2. apply list_elem_of_fmap in H1 as (i & -> & _).
    apply list_elem_of_fmap in H2 as (j & H & _). by apply var_x_not_rmsd in H.
  - by apply (NoDup_names var_rmsd); [apply var_rmsd_inj|].
Qed.

Lemma final_store_names (n : Z) (stepFunction thresholdRMSD : string)
    (ideal_positions : Positions) (block_atoms : list (list Z)) (numAtoms : Z)
    (normalize : bool) :
  Forall (fun f => NoDup (bound_names f))
    (final_store n stepFunction thresholdRMSD ideal_positions block_atoms numAtoms normalize).
Proof.
  unfold final_store, single_after, chunked_after, self_energy, bound_names.
  destruct (n <=? 32) eqn:Hsmall.
  - apply Forall_singleton. cbn [energy variables]. destruct normalize.
    + cbn [defined_names app]. rewrite <-list_fmap_compose.
      apply (NoDup_names var_rmsd); [apply var_rmsd_inj|apply range_NoDup].
    + apply Z.leb_le in Hsmall. unfold expression. cbn [defined_names].
      rewrite (Z.min_r (0 + 32) n) by lia. apply terms_force_names, range_NoDup.
  - apply Forall_cons. split.
    + cbn [energy variables].
      assert (∀ e, defined_names (if normalize then Normalized (Sum e) n else Sum e) = [])
        as -> by (by destruct normalize).
      cbn [app]. rewrite <-list_fmap_compose.
      apply (NoDup_names var_chunk); [apply var_chunk_inj|apply range_NoDup].
    + apply Forall_fmap, Forall_forall. intros c _.
      unfold chunk_after, expression, compose. cbn [energy variables defined_names].
      apply terms_force_names, range_NoDup.
Qed.

(** X14: in every force of the store a construction leaves, the names bound,
    those of the definitions [x{i}] of its text and those of its registered
    variables [rmsd{i}] or [chunk{i}], are all different: no name hides
    another. *)
Theorem forces_names_distinct (residue_blocks : list (list Z))
    (ideal_positions : Positions) (residues : list Residue) (numAtoms : Z)
    (thresholdRMSD stepFunction : string) (normalize : bool) (self : RMSDContent) :
  RMSDContent_init residue_blocks ideal_positions residues numAtoms thresholdRMSD
    stepFunction normalize = Ok self →
  Forall (fun f => NoDup (bound_names f)) (forces self).
Proof.
  intros Hinit.
  apply RMSDContent_init_Ok in Hinit as (Hn & block_atoms & Hatoms & Hlen & ->).
  apply final_store_names.
Qed.

Lemma forces_names_distinct_witness :
  ∃ self,
    RMSDContent_init (unblocked_groups 16 false) ANTIBETA_POSITIONS (ala <$> range0 16) 160
      default_thresholdRMSD default_stepFunction false = Ok self
    ∧ Forall (fun f => NoDup (bound_names f)) (forces self).
Proof.
  destruct (RMSDContent_init (unblocked_groups 16 false) ANTIBETA_POSITIONS
              (ala <$> range0 16) 160 default_thresholdRMSD default_stepFunction false)
    as [self|e] eqn:E; [|vm_compute in E; discriminate].
  exists self. split; [done|].
  exact (forces_names_distinct _ _ _ _ _ _ _ self E).
Defined.

(** ** Texts *)

Lemma replace_char_app (old : ascii) (new s1 s2 : string) :
  replace_char old new (s1 +:+ s2) = replace_char old new s1 +:+ replace_char old new s2.
Proof.
  induction s1 as [|c s1 IH]; [done|].
  change (String c s1 +:+ s2) with (String c (s1 +:+ s2)). cbn [replace_char].
  destruct (Ascii.eqb c old).
  - by rewrite IH, string_app_assoc.
  - by rewrite IH.
Qed.

(** X15: the placeholder is replaced wherever the character [x] stands in the
    step function, whatever surrounds it (so also inside a name such as
    [exp]): the text of a term for [before + "x" + after] is the text for
    [before], the variable, and the text for [after]. *)
Theorem render_term_every_x (before after name : string) :
  render_term (Step (before +:+ "x" +:+ after) name)
  = render_term (Step before name) +:+ name +:+ render_term (Step after name).
Proof.
  cbn [render_term]. rewrite replace_char_app.
  change ("x" +:+ after)%string with (String "x" after). cbn [replace_char].
  by rewrite Ascii.eqb_refl.
Qed.

Lemma replace_char_absent (old : ascii) (new s : string) :
  (∀ s1 s2, s ≠ s1 +:+ String old s2) → replace_char old new s = s.
Proof.
  induction s as [|c s IH]; intros Habsent; [done|]. cbn [replace_char].
  destruct (Ascii.eqb c old) eqn:Hc.
  - apply Ascii.eqb_eq in Hc as ->. by destruct (Habsent "" s).
  - f_equal. apply IH. intros s1 s2 ->. by apply (Habsent (String c s1) s2).
Qed.

(** X16: a step function in which the character [x] does not occur yields the
    same text for every group, so that no term depends on its group. *)
Theorem render_term_without_x (stepFunction name name' : string) :
  (∀ s1 s2, stepFunction ≠ s1 +:+ String "x" s2) →
  render_term (Step stepFunction name) = render_term (Step stepFunction name').
Proof. intros Habsent. cbn [render_term]. by rewrite !replace_char_absent. Qed.

Lemma render_term_without_x_witness :
  render_term (Step "1" "x0") = render_term (Step "1" "x1").
Proof.
  apply (render_term_without_x "1" "x0" "x1").
  intros [|c1 [|c2 s1]] s2; discriminate.
Defined.

(** ** Normalization with more than 32 groups *)

